(** * kvtools/redis: the Valkeyrie store on top of Redis

    A shallow embedding of [redis.go].  The Go methods of [*Store] and
    [*redisLock] become functions in a state monad over [World], the state of
    everything the process talks to: the Redis keyspace, the wall clock, the
    network and the list of commands the client has sent. *)

From Stdlib Require Import ZArith String Ascii List Bool Lia DecimalString.
From stdpp Require Import gmap strings list pretty.

Local Open Scope string_scope.
Local Open Scope Z_scope.
Local Open Scope list_scope.

(** ** Go values *)

(** Go [error] values.  The first three are the sentinels of
    [valkeyrie/store], [ErrAbortTryLock] is declared in [redis.go], [Nil] is
    [redis.Nil], [Canceled] is [context.Canceled]; every other error is known
    by its text only. *)
Inductive error : Type :=
| ErrKeyNotFound
| ErrKeyModified
| ErrKeyExists
| ErrAbortTryLock
| Nil
| Canceled
| errorString (msg : string).

#[global] Instance error_eq_dec : EqDecision error.
Proof. solve_decision. Defined.

(** [err.Error()] *)
Definition Error (e : error) : string :=
  match e with
  | ErrKeyNotFound => "key not found in store"
  | ErrKeyModified => "unable to complete atomic operation, key modified"
  | ErrKeyExists => "previous K/V pair exists, cannot complete Atomic operation"
  | ErrAbortTryLock => "redis: lock operation aborted"
  | Nil => "redis: nil"
  | Canceled => "context canceled"
  | errorString msg => msg
  end.

(** [errors.Is(err, target)] for the unwrapped errors of this package; a nil
    [err] is [None]. *)
Definition errors_Is (err : option error) (target : error) : bool :=
  match err with
  | Some e => bool_decide (e = target)
  | None => false
  end.

Module strings.

(** [strings.HasPrefix] *)
Definition HasPrefix (s prefix : string) : bool := String.prefix prefix s.

(** [s[n:]] *)
Fixpoint drop (n : nat) (s : string) : string :=
  match n, s with
  | O, _ => s
  | S n', String _ s' => drop n' s'
  | S _, EmptyString => EmptyString
  end.

(** [strings.TrimPrefix] *)
Definition TrimPrefix (s prefix : string) : string :=
  if HasPrefix s prefix then drop (String.length prefix) s else s.

(** [strings.Contains] *)
Fixpoint Contains (s substr : string) : bool :=
  String.prefix substr s ||
  match s with
  | EmptyString => false
  | String _ s' => Contains s' substr
  end.

End strings.

(** [time.Duration]: a count of nanoseconds. *)
Definition Duration := Z.
Definition Second : Duration := 1000000000.
Definition Millisecond : Duration := 1000000.

Definition noExpiration : Duration := 0.
Definition defaultLockTTL : Duration := 60 * Second.

(** [store.KVPair]; [Value] is a byte slice, a [string] here is a sequence
    of bytes; [LastIndex] is a [uint64]. *)
Record KVPair : Type := mkKVPair {
  Key : string;
  Value : string;
  LastIndex : Z
}.

#[global] Instance KVPair_eq_dec : EqDecision KVPair.
Proof. solve_decision. Defined.

(** [store.KVPair{}] *)
Definition zeroKVPair : KVPair := mkKVPair "" "" 0.

(** [store.WriteOptions] and [store.LockOptions], the fields this package
    reads. *)
Record WriteOptions : Type := { TTL : Duration }.
Record LockOptions : Type := { lockValue : string; lockTTL : Duration }.

(** The [Codec] interface.  [Encode] takes a pointer, [None] is nil;
    [Decode] fills the pair it is given. *)
Record Codec : Type := {
  Encode : option KVPair -> string * option error;
  Decode : string -> KVPair -> KVPair + error
}.

(** ** The world outside the process *)

(** The calls that the package makes on its go-redis client, with their
    arguments as the package gives them. *)
Inductive Command : Type :=
| SET (key blob : string) (ttl : Duration)
| SETNX (key blob : string) (ttl : Duration)
| GET (key : string)
| DEL (keys : list string)
| EXISTS (key : string)
| SCAN (cursor : nat) (pattern : string) (count : Z)
| MGET (keys : list string)
| EVAL (args : list string)
| PSUBSCRIBE (pattern : string).

(** The keyspace maps a key to its blob and the expiry the server gave it
    when it was written (0: none).  [now] is the wall clock in nanoseconds.  [net] decides the
    fate of the commands to come, one entry per command: [Some e] loses the
    command with the transport error [e], [None] (or no entry) delivers it.
    [log] is the list of commands sent so far. *)
Record World : Type := mkWorld {
  db : gmap string (string * Duration);
  now : Z;
  net : list (option error);
  log : list Command
}.

(** The state monad of the process. *)
Definition IO (A : Type) : Type := World -> A * World.

Definition ret {A} (a : A) : IO A := fun w => (a, w).

Definition bind {A B} (m : IO A) (k : A -> IO B) : IO B :=
  fun w => let (a, w') := m w in k a w'.

Notation "'let*' x := m 'in' k" := (bind m (fun x => k))
  (at level 10, x name, m at level 100, k at level 200, only parsing).
Notation "'let*' ' pat := m 'in' k" := (bind m (fun x => match x with pat => k end))
  (at level 10, pat pattern, m at level 100, k at level 200, only parsing).

(** What a go-redis command object holds once the call returns: [cmd.Val()]
    and [cmd.Err()]. *)
Record Cmd (A : Type) : Type := mkCmd { Val : A; Err : option error }.
Arguments mkCmd {A} _ _.
Arguments Val {A} _.
Arguments Err {A} _.

(** The effect of other clients of the same server, and of time passing:
    they change the keyspace and the clock, nothing else. *)
Definition interfere (others : World -> World) (w : World) : World :=
  mkWorld (db (others w)) (now (others w)) (net w) (log w).

Definition meanwhile (others : World -> World) : IO unit :=
  fun w => (tt, interfere others w).

Module client.

(** Sends [c]: it is logged and the network decides. *)
Definition send (c : Command) : IO (option error) := fun w =>
  match net w with
  | [] => (None, mkWorld (db w) (now w) [] (log w ++ [c]))
  | fate :: rest => (fate, mkWorld (db w) (now w) rest (log w ++ [c]))
  end.

Definition update (f : gmap string (string * Duration) -> gmap string (string * Duration)) : IO unit :=
  fun w => (tt, mkWorld (f (db w)) (now w) (net w) (log w)).

Definition lookup (key : string) : IO (option (string * Duration)) :=
  fun w => (db w !! key, w).

(** The expiry option of a SET command on the wire: none, [KEEPTTL],
    [PX milliseconds] or [EX seconds]. *)
Inductive Expire : Type :=
| Persist
| KEEPTTL
| PX (milliseconds : Z)
| EX (seconds : Z).

(** [redis.KeepTTL] *)
Definition KeepTTL : Duration := -1.

(** How go-redis writes a duration: [usePrecise], [formatMs] and
    [formatSec] of its [commands.go].  Go's division and remainder
    truncate. *)
Definition usePrecise (dur : Duration) : bool :=
  (dur <? Second) || negb (Z.rem dur Second =? 0).

Definition formatMs (dur : Duration) : Z :=
  if (0 <? dur) && (dur <? Millisecond) then 1 else dur ÷ Millisecond.

Definition formatSec (dur : Duration) : Z :=
  if (0 <? dur) && (dur <? Second) then 1 else dur ÷ Second.

Definition timed (dur : Duration) : Expire :=
  if usePrecise dur then PX (formatMs dur) else EX (formatSec dur).

(** The option that [Set] sends: an expiry for a positive duration,
    [KEEPTTL] for [redis.KeepTTL], none otherwise. *)
Definition setExpire (expiration : Duration) : Expire :=
  if 0 <? expiration then timed expiration
  else if expiration =? KeepTTL then KEEPTTL
  else Persist.

(** The option that [SetNX] sends: none for a zero duration (the command is
    then a plain SETNX), [KEEPTTL] for [redis.KeepTTL], and an expiry
    otherwise, also for a negative duration. *)
Definition setNXExpire (expiration : Duration) : Expire :=
  if expiration =? 0 then Persist
  else if expiration =? KeepTTL then KEEPTTL
  else timed expiration.

(** The server refuses an expiry that is not positive, before it looks at
    the key. *)
Definition invalidExpire : error := errorString "ERR invalid expire time in 'set' command".

Definition valid (e : Expire) : bool :=
  match e with
  | PX n | EX n => 0 <? n
  | Persist | KEEPTTL => true
  end.

(** The expiry that the server gives the entry, [cur] being what the key
    holds before the write. *)
Definition expiry (e : Expire) (cur : option (string * Duration)) : Duration :=
  match e with
  | Persist => 0
  | KEEPTTL => match cur with Some (_, kept) => kept | None => 0 end
  | PX n => n * Millisecond
  | EX n => n * Second
  end.

Definition Set_ (key blob : string) (expiration : Duration) : IO (Cmd string) :=
  let* lost := send (SET key blob expiration) in
  match lost with
  | Some e => ret (mkCmd "" (Some e))
  | None =>
      if valid (setExpire expiration) then
        let* cur := lookup key in
        let* _ := update (insert key (blob, expiry (setExpire expiration) cur)) in
        ret (mkCmd "OK" None)
      else ret (mkCmd "" (Some invalidExpire))
  end.

(** [SetNX]: writes only when the key is absent, and says whether it did;
    a refused command says [false] and holds the error of the server. *)
Definition SetNX (key blob : string) (expiration : Duration) : IO (Cmd bool) :=
  let* lost := send (SETNX key blob expiration) in
  match lost with
  | Some e => ret (mkCmd false (Some e))
  | None =>
      if valid (setNXExpire expiration) then
        let* cur := lookup key in
        match cur with
        | Some _ => ret (mkCmd false None)
        | None =>
            let* _ := update (insert key (blob, expiry (setNXExpire expiration) None)) in
            ret (mkCmd true None)
        end
      else ret (mkCmd false (Some invalidExpire))
  end.

Definition Get (key : string) : IO (Cmd string) :=
  let* lost := send (GET key) in
  match lost with
  | Some e => ret (mkCmd "" (Some e))
  | None =>
      let* cur := lookup key in
      match cur with
      | Some (blob, _) => ret (mkCmd blob None)
      | None => ret (mkCmd "" (Some Nil))
      end
  end.

Definition wrongArity (name : string) : error :=
  errorString ("ERR wrong number of arguments for '" +:+ name +:+ "' command").

Definition Del (keys : list string) : IO (Cmd Z) :=
  let* lost := send (DEL keys) in
  match lost, keys with
  | Some e, _ => ret (mkCmd 0 (Some e))
  | None, [] => ret (mkCmd 0 (Some (wrongArity "del")))
  | None, _ =>
      let* present := (fun w => (filter (fun k => is_Some (db w !! k)) keys, w)) in
      let* _ := update (fun m => foldr delete m keys) in
      ret (mkCmd (Z.of_nat (length present)) None)
  end.

Definition Exists (key : string) : IO (Cmd Z) :=
  let* lost := send (EXISTS key) in
  match lost with
  | Some e => ret (mkCmd 0 (Some e))
  | None =>
      let* cur := lookup key in
      ret (mkCmd (match cur with Some _ => 1 | None => 0 end) None)
  end.

Definition MGet (keys : list string) : IO (Cmd (list (option string))) :=
  let* lost := send (MGET keys) in
  match lost, keys with
  | Some e, _ => ret (mkCmd [] (Some e))
  | None, [] => ret (mkCmd [] (Some (wrongArity "mget")))
  | None, _ => fun w => (mkCmd (map (fun k => fst <$> db w !! k) keys) None, w)
  end.

(** SCAN.  The cursor is the server's own: what a call walks over and the
    cursor it hands back for the next call (0 when the iteration is over)
    are [iterate], a function of the keyspace, the cursor and the COUNT
    hint; a key may come more than once.  The reply holds the keys walked
    over that match the pattern; the matching of a pattern against a key is
    the server's too. *)
Definition Scan (stringmatch : string -> string -> bool)
    (iterate : gmap string (string * Duration) -> nat -> Z -> list string * nat)
    (cursor : nat) (pattern : string) (count : Z) : IO (Cmd (list string * nat)) :=
  let* lost := send (SCAN cursor pattern count) in
  match lost with
  | Some e => ret (mkCmd ([], 0%nat) (Some e))
  | None => fun w =>
      let (page, next) := iterate (db w) cursor count in
      (mkCmd (List.filter (stringmatch pattern) page, next) None, w)
  end.

(** What a script does on the server, given its arguments: the new
    keyspace and the error reply, if any. *)
Definition Script : Type :=
  list string -> gmap string (string * Duration) ->
  gmap string (string * Duration) * option error.

(** [script.Run(ctx, client, nil, args...)] *)
Definition Run (script : Script) (args : list string) : IO (Cmd unit) :=
  let* lost := send (EVAL args) in
  match lost with
  | Some e => ret (mkCmd tt (Some e))
  | None => fun w =>
      let (m, reply) := script args (db w) in
      (mkCmd tt reply, mkWorld m (now w) (net w) (log w))
  end.

(** [client.PSubscribe]: the subscription is only recorded; what it
    delivers is the schedule given to the loop that reads it. *)
Definition PSubscribe (pattern : string) : IO unit := fun w =>
  (tt, mkWorld (db w) (now w) (net w) (log w ++ [PSUBSCRIBE pattern])).

(** [time.Now().Nanosecond()]: the nanoseconds within the second, in
    0..999999999. *)
Definition Nanosecond : IO Z := fun w => (now w mod Second, w).

End client.

(** ** Worlds *)

(** The fate of the next command. *)
Definition lost (w : World) : option error :=
  match net w with
  | fate :: _ => fate
  | [] => None
  end.

(** No command to come is lost. *)
Definition reliable (w : World) : Prop := Forall (fun fate => fate = None) (net w).

(** The world once [c] has been sent. *)
Definition sent (c : Command) (w : World) : World := snd (client.send c w).

(** The world with another keyspace. *)
Definition withDb (m : gmap string (string * Duration)) (w : World) : World :=
  mkWorld m (now w) (net w) (log w).

(** Time passes. *)
Definition elapse (d : Duration) (w : World) : World :=
  mkWorld (db w) (now w + d) (net w) (log w).

(** ** The store *)

(** Modelled from the spec: the names of the two scripted commands, [cmdCAS]
    and [cmdCAD], which the package declares next to its script, in a file
    that is not among the sources; the conditional write and the conditional
    delete of the spec. *)
Definition cmdCAS : string := "cas".
Definition cmdCAD : string := "cad".

(** [Store]; the [client] field is the [World] the monad carries. *)
Record Store : Type := {
  script : client.Script;
  codec : Codec
}.

Definition scanRegex (directory : string) : string := directory +:+ "*".

Definition normalize (key : string) : string := strings.TrimPrefix key "/".

(** [int(dur/time.Second)] printed with [%d]; Go's division truncates. *)
Definition formatSec (dur : Duration) : string := pretty (dur ÷ Second).

Definition sequenceNum : IO Z := client.Nanosecond.

Definition regexWatch (key : string) (withChildren : bool) : string :=
  if withChildren then "__keyspace*:" +:+ key +:+ "*" else "__keyspace*:" +:+ key.

(** [opts != nil && opts.TTL != 0] selects the expiry in [Put] and
    [AtomicPut]. *)
Definition expiration (opts : option WriteOptions) : Duration :=
  match opts with
  | Some o => if (TTL o =? 0)%Z then noExpiration else TTL o
  | None => noExpiration
  end.

Definition setTTL (r : Store) (key : string) (val : KVPair) (ttl : Duration) : IO (option error) :=
  match Encode (codec r) (Some val) with
  | (_, Some err) => ret (Some err)
  | (valStr, None) =>
      let* reply := client.Set_ key valStr ttl in
      ret (Err reply)
  end.

Definition Put (r : Store) (key value : string) (opts : option WriteOptions) : IO (option error) :=
  let expirationAfter := expiration opts in
  let* seq := sequenceNum in
  setTTL r (normalize key) (mkKVPair key value seq) expirationAfter.

Definition get (r : Store) (key : string) : IO (option KVPair * option error) :=
  let* reply := client.Get key in
  match Err reply with
  | Some err =>
      if errors_Is (Some err) Nil then ret (None, Some ErrKeyNotFound)
      else ret (None, Some err)
  | None =>
      match Decode (codec r) (Val reply) zeroKVPair with
      | inr err => ret (None, Some err)
      | inl val =>
          let val := if bool_decide (Key val = "") then mkKVPair key (Value val) (LastIndex val) else val in
          ret (Some val, None)
      end
  end.

Definition Get (r : Store) (key : string) : IO (option KVPair * option error) :=
  get r (normalize key).

Definition Delete (r : Store) (key : string) : IO (option error) :=
  let* reply := client.Del [normalize key] in
  ret (Err reply).

Definition Exists (r : Store) (key : string) : IO (bool * option error) :=
  let* reply := client.Exists (normalize key) in
  ret (negb (Val reply =? 0)%Z, Err reply).

Definition setNX (r : Store) (key : string) (val : KVPair) (expirationAfter : Duration) : IO (option error) :=
  match Encode (codec r) (Some val) with
  | (_, Some err) => ret (Some err)
  | (valBlob, None) =>
      let* reply := client.SetNX key valBlob expirationAfter in
      if negb (Val reply) then ret (Some ErrKeyExists) else ret None
  end.

Definition runScript (r : Store) (args : list string) : IO (option error) :=
  let* reply := client.Run (script r) args in
  match Err reply with
  | Some e =>
      if strings.Contains (Error e) "redis: key is not found" then ret (Some ErrKeyNotFound)
      else if strings.Contains (Error e) "redis: value has been changed" then ret (Some ErrKeyModified)
      else ret (Some e)
  | None => ret None
  end.

Definition cas (r : Store) (key : string) (oldPair newPair : KVPair) (secInStr : string) : IO (option error) :=
  match Encode (codec r) (Some newPair) with
  | (_, Some err) => ret (Some err)
  | (newVal, None) =>
      match Encode (codec r) (Some oldPair) with
      | (_, Some err) => ret (Some err)
      | (oldVal, None) => runScript r [cmdCAS; key; oldVal; newVal; secInStr]
      end
  end.

Definition AtomicPut (r : Store) (key value : string) (previous : option KVPair)
    (opts : option WriteOptions) : IO (bool * option KVPair * option error) :=
  let expirationAfter := expiration opts in
  let* seq := sequenceNum in
  let newKV := mkKVPair key value seq in
  let nKey := normalize key in
  match previous with
  | None =>
      let* err := setNX r nKey newKV expirationAfter in
      match err with
      | Some e => ret (false, None, Some e)
      | None => ret (true, Some newKV, None)
      end
  | Some prev =>
      let* err := cas r nKey prev newKV (formatSec expirationAfter) in
      match err with
      | Some e => ret (false, None, Some e)
      | None => ret (true, Some newKV, None)
      end
  end.

(** [old] is a pointer: [Unlock] passes [l.last], which may be nil. *)
Definition cad (r : Store) (key : string) (old : option KVPair) : IO (option error) :=
  match Encode (codec r) old with
  | (_, Some err) => ret (Some err)
  | (oldVal, None) => runScript r [cmdCAD; key; oldVal]
  end.

Definition AtomicDelete (r : Store) (key : string) (previous : option KVPair) : IO (bool * option error) :=
  let* err := cad r (normalize key) previous in
  match err with
  | Some e => ret (false, Some e)
  | None => ret (true, None)
  end.

(** ** Listing *)

Section Directories.

(** How the server matches a pattern against a key, and how it iterates
    over its keyspace. *)
Variable stringmatch : string -> string -> bool.
Variable iterate : gmap string (string * Duration) -> nat -> Z -> list string * nat.

Definition startCursor : nat := 0.
Definition endCursor : nat := 0.
Definition defaultCount : Z := 10.

(** The [for nextCursor != endCursor] loop of [keys].  Go puts no bound on
    it; [fuel] bounds the number of rounds here and [None] says that it
    ran out. *)
Fixpoint keysLoop (fuel : nat) (regex : string) (allKeys : list string) (nextCursor : nat)
    : IO (option (list string * option error)) :=
  if bool_decide (nextCursor = endCursor) then ret (Some (allKeys, None))
  else
    match fuel with
    | O => ret None
    | S fuel' =>
        let* reply := client.Scan stringmatch iterate nextCursor regex defaultCount in
        match Err reply with
        | Some err => ret (Some ([], Some err))
        | None => keysLoop fuel' regex (allKeys ++ fst (Val reply)) (snd (Val reply))
        end
    end.

Definition keys (fuel : nat) (r : Store) (regex : string)
    : IO (option (list string * option error)) :=
  let* reply := client.Scan stringmatch iterate startCursor regex defaultCount in
  match Err reply with
  | Some err => ret (Some ([], Some err))
  | None =>
      let* looped := keysLoop fuel regex ([] ++ fst (Val reply)) (snd (Val reply)) in
      match looped with
      | None => ret None
      | Some (_, Some err) => ret (Some ([], Some err))
      | Some (allKeys, None) =>
          if bool_decide (length allKeys = 0%nat) then ret (Some ([], Some ErrKeyNotFound))
          else ret (Some (allKeys, None))
      end
  end.

(** The [range replies] loop of [mget], from index [i] on; a reply that is
    not a string is [None]. *)
Fixpoint mgetRange (r : Store) (directory : string) (keys : list string) (i : nat)
    (replies : list (option string)) (pairs : list KVPair) : list KVPair * option error :=
  match replies with
  | [] => (pairs, None)
  | reply :: rest =>
      let sreply := match reply with Some v => v | None => "" end in
      if bool_decide (sreply = "") then mgetRange r directory keys (S i) rest pairs
      else
        match Decode (codec r) sreply zeroKVPair with
        | inr err => ([], Some err)
        | inl kv =>
            let kv :=
              if bool_decide (Key kv = "")
              then mkKVPair (default "" (keys !! i)) (Value kv) (LastIndex kv)
              else kv in
            if bool_decide (normalize (Key kv) <> directory)
            then mgetRange r directory keys (S i) rest (pairs ++ [kv])
            else mgetRange r directory keys (S i) rest pairs
        end
  end.

Definition mget (r : Store) (directory : string) (keys : list string)
    : IO (list KVPair * option error) :=
  let* reply := client.MGet keys in
  match Err reply with
  | Some err => ret ([], Some err)
  | None => ret (mgetRange r directory keys 0 (Val reply) [])
  end.

Definition list_ (fuel : nat) (r : Store) (directory : string)
    : IO (option (list KVPair * option error)) :=
  let regex := scanRegex directory in
  let* found := keys fuel r regex in
  match found with
  | None => ret None
  | Some (_, Some err) => ret (Some ([], Some err))
  | Some (allKeys, None) =>
      let* pairs := mget r directory allKeys in
      ret (Some pairs)
  end.

Definition List (fuel : nat) (r : Store) (directory : string)
    : IO (option (list KVPair * option error)) :=
  list_ fuel r (normalize directory).

Definition DeleteTree (fuel : nat) (r : Store) (directory : string)
    : IO (option (option error)) :=
  let regex := scanRegex (normalize directory) in
  let* found := keys fuel r regex in
  match found with
  | None => ret None
  | Some (_, Some err) => ret (Some (Some err))
  | Some (allKeys, None) =>
      let* reply := client.Del allKeys in
      ret (Some (Err reply))
  end.

(** No key of the keyspace [m] matches [pattern]. *)
Definition unmatched (pattern : string) (m : gmap string (string * Duration)) : Prop :=
  forall k, is_Some (m !! k) -> stringmatch pattern k = false.

(** The keys that the calls of an iteration walk over, from the call at
    [cursor] to the one that hands back the end cursor; [None] when [fuel]
    calls do not get there. *)
Fixpoint tour (fuel : nat) (m : gmap string (string * Duration)) (cursor : nat)
    : option (list string) :=
  match fuel with
  | O => None
  | S fuel' =>
      let (page, next) := iterate m cursor defaultCount in
      if bool_decide (next = endCursor) then Some page
      else app page <$> tour fuel' m next
  end.

(** What the server promises of a full iteration over a keyspace that does
    not change meanwhile: it ends, here within [fuel] calls after the
    first, and the keys it walks over are the keys of the keyspace, each at
    least once. *)
Definition full (fuel : nat) (m : gmap string (string * Duration)) : Prop :=
  exists ks, tour (S fuel) m startCursor = Some ks /\ forall k, k ∈ ks <-> is_Some (m !! k).

End Directories.

(** C9 in the words of the claim: no key of the keyspace [m] is under the
    directory, that is, none begins with it. *)
Definition noKeyUnder (directory : string) (m : gmap string (string * Duration)) : Prop :=
  forall k, is_Some (m !! k) -> strings.HasPrefix k (normalize directory) = false.

(** ** Watching *)

(** The [interface{}] values that flow from a [getter] to a [pusher]: nil, a
    [*store.KVPair] or a [[]*store.KVPair]. *)
Inductive iface : Type :=
| inil
| ipair (kv : KVPair)
| ipairs (kvs : list KVPair).

(** [redis.Message] *)
Record Message : Type := { Channel : string; Pattern : string; Payload : string }.

(** One message taken from [msgCh]: what the other clients did since the
    loop last looked, what [ctx.Err()] is when the loop polls [ctx.Done()]
    ([None] while the context is live), and the message. *)
Record Arrival : Type := {
  others : World -> World;
  ctxErr : option error;
  message : Message
}.

Definition getter : Type := IO (iface * option error).

(** A [pusher] sends on a channel; [Ch] is what has been sent on it. *)
Definition pusher (Ch : Type) : Type := iface -> Ch -> Ch.

(** The [for m := range msgCh] loop of [watchLoop]; the list ends when
    [msgCh] is closed. *)
Fixpoint watchRange {Ch} (msgCh : list Arrival) (get : getter) (push : pusher Ch) (ch : Ch)
    : IO (Ch * option error) :=
  match msgCh with
  | [] => ret (ch, None)
  | m :: rest =>
      let* _ := meanwhile (others m) in
      match ctxErr m with
      | Some e => ret (ch, Some e)
      | None =>
          let* '(kv, err) := get in
          if bool_decide (err <> None) && negb (errors_Is err ErrKeyNotFound) then ret (ch, err)
          else
            let kv :=
              if errors_Is err ErrKeyNotFound &&
                 (bool_decide (Payload (message m) = "expired") || bool_decide (Payload (message m) = "del"))
              then ipair zeroKVPair else kv in
            watchRange rest get push (push kv ch)
      end
  end.

Definition watchLoop {Ch} (msgCh : list Arrival) (get : getter) (push : pusher Ch) (ch : Ch)
    : IO (Ch * option error) :=
  let* '(kv, err) := get in
  if bool_decide (err <> None) && negb (errors_Is err ErrKeyNotFound) then ret (ch, err)
  else
    let kv := if errors_Is err ErrKeyNotFound then ipair zeroKVPair else kv in
    watchRange msgCh get push (push kv ch).

Definition newSubscribe (regex : string) : IO unit := client.PSubscribe regex.

(** The two closures of [Watch]. *)
Definition watchGet (r : Store) (nKey : string) : getter :=
  let* '(kv, err) := get r nKey in
  match err, kv with
  | Some e, _ => ret (inil, Some e)
  | None, Some kv => ret (ipair kv, None)
  | None, None => ret (inil, None)
  end.

Definition watchPush : pusher (list KVPair) := fun v watchCh =>
  match v with
  | ipair val => watchCh ++ [val]
  | _ => watchCh
  end.

(** [Watch] with the goroutine it starts run against the messages [msgCh]
    that its subscription delivers: what is sent on [watchCh] before it is
    closed, and the error that [watchLoop] ends with (the goroutine logs it). *)
Definition Watch (r : Store) (key : string) (msgCh : list Arrival) : IO (list KVPair * option error) :=
  let nKey := normalize key in
  let* _ := newSubscribe (regexWatch nKey false) in
  watchLoop msgCh (watchGet r nKey) watchPush [].

Section WatchTree.

Variable stringmatch : string -> string -> bool.
Variable iterate : gmap string (string * Duration) -> nat -> Z -> list string * nat.

(** The two closures of [WatchTree].  A scan that runs out of fuel has no
    answer to give; the getter then reports an error of its own. *)
Definition treeGet (fuel : nat) (r : Store) (nKey : string) : getter :=
  let* listed := list_ stringmatch iterate fuel r nKey in
  match listed with
  | Some (kvs, None) => ret (ipairs kvs, None)
  | Some (_, Some e) => ret (inil, Some e)
  | None => ret (inil, Some (errorString "scan does not end"))
  end.

Definition treePush : pusher (list (list KVPair)) := fun v watchCh =>
  match v with
  | ipairs p => watchCh ++ [p]
  | _ => watchCh
  end.

Definition WatchTree (fuel : nat) (r : Store) (directory : string) (msgCh : list Arrival)
    : IO (list (list KVPair) * option error) :=
  let nKey := normalize directory in
  let* _ := newSubscribe (regexWatch nKey true) in
  watchLoop msgCh (treeGet fuel r nKey) treePush [].

End WatchTree.

(** ** The lock *)

(** The goroutine that [tryLock] starts with [go l.holdLock(ctx, lockHeld)],
    seen from outside: not started; parked in its [select] with a ticker of
    the given period; returned, which closes [lockHeld]; or dead in
    [time.NewTicker], which panics on a period that is not positive. *)
Inductive Holder : Type :=
| NotStarted
| Renewing (heartbeat : Duration)
| Returned
| Panicked.

(** [redisLock].  [holder] stands for the two channels of the Go struct and
    the goroutine at their other end: a send on [unlockCh] is taken only
    while the goroutine is parked, and [lockHeld] is closed once it has
    returned. *)
Record redisLock : Type := mkLock {
  redis : Store;
  last : option KVPair;
  key : string;
  value : string;
  ttl : Duration;
  holder : Holder
}.

Definition setLast (l : redisLock) (item : option KVPair) : redisLock :=
  mkLock (redis l) item (key l) (value l) (ttl l) (holder l).

Definition setHolder (l : redisLock) (h : Holder) : redisLock :=
  mkLock (redis l) (last l) (key l) (value l) (ttl l) h.

Definition NewLock (r : Store) (key : string) (opts : option LockOptions) : redisLock :=
  let ttl :=
    match opts with
    | Some o => if (lockTTL o =? 0)%Z then defaultLockTTL else lockTTL o
    | None => defaultLockTTL
    end in
  let value := match opts with Some o => lockValue o | None => "" end in
  mkLock r None key value ttl NotStarted.

(** [time.NewTicker(d)] *)
Definition NewTicker (d : Duration) : option Duration :=
  if 0 <? d then Some d else None.

(** The start of [holdLock], up to its first [select]. *)
Definition holdLock (l : redisLock) : redisLock :=
  match NewTicker (ttl l ÷ 3) with
  | Some heartbeat => setHolder l (Renewing heartbeat)
  | None => setHolder l Panicked
  end.

(** The closure [hold] of [holdLock]. *)
Definition hold (l : redisLock) : IO (redisLock * option error) :=
  let* '(_, item, err) :=
    AtomicPut (redis l) (key l) (value l) (last l) (Some {| TTL := ttl l |}) in
  match err with
  | None => ret (setLast l item, None)
  | Some e => ret (l, Some e)
  end.

(** The cases of the [select] of [holdLock]. *)
Inductive HoldCase : Type :=
| heartbeat_C
| unlockCh_recv
| ctx_Done.

(** One round of the [for]/[select] of [holdLock]: the goroutine is woken
    by [c]. *)
Definition holdSelect (c : HoldCase) (l : redisLock) : IO redisLock :=
  match holder l with
  | Renewing _ =>
      match c with
      | heartbeat_C =>
          let* '(l, err) := hold l in
          match err with
          | Some _ => ret (setHolder l Returned)
          | None => ret l
          end
      | unlockCh_recv => ret (setHolder l Returned)
      | ctx_Done => ret (setHolder l Returned)
      end
  | _ => ret l
  end.

(** The goroutine through a sequence of wake-ups, the other clients acting
    before each. *)
Fixpoint holdRun (wakeups : list ((World -> World) * HoldCase)) (l : redisLock) : IO redisLock :=
  match wakeups with
  | [] => ret l
  | (others, c) :: rest =>
      let* _ := meanwhile others in
      let* l := holdSelect c l in
      holdRun rest l
  end.

Definition isCASError (err : option error) : bool :=
  errors_Is err ErrKeyNotFound || errors_Is err ErrKeyModified || errors_Is err ErrKeyExists.

Definition tryLock (l : redisLock) : IO (redisLock * (bool * option error)) :=
  let* '(success, item, err) :=
    AtomicPut (redis l) (key l) (value l) (last l) (Some {| TTL := ttl l |}) in
  if success then ret (holdLock (setLast l item), (true, None))
  else if isCASError err then ret (l, (false, None))
  else ret (l, (false, err)).

(** The cases of the [select] of [Lock]. *)
Inductive LockCase : Type :=
| lock_ctx_Done
| watch_recv.

(** The [for]/[select] of [Lock], through the cases the runtime takes; the
    other clients act before each.  A run that is still waiting when the
    list ends has not returned: [None]. *)
Fixpoint lockWait (cases : list ((World -> World) * LockCase)) (l : redisLock)
    : IO (redisLock * option (bool * option error)) :=
  match cases with
  | [] => ret (l, None)
  | (others, c) :: rest =>
      let* _ := meanwhile others in
      match c with
      | lock_ctx_Done => ret (l, Some (false, Some ErrAbortTryLock))
      | watch_recv =>
          let* '(l, (success, err)) := tryLock l in
          match err with
          | Some e => ret (l, Some (false, Some e))
          | None =>
              if success then ret (l, Some (true, None))
              else lockWait rest l
          end
      end
  end.

(** [Lock]: the result says whether a [lockHeld] channel is returned, and
    the error.  Of the goroutine behind the watch, which is [Watch] above,
    only the subscription and the deliveries are kept: a [watch_recv] is one
    receive from its channel. *)
Definition Lock (cases : list ((World -> World) * LockCase)) (l : redisLock)
    : IO (redisLock * option (bool * option error)) :=
  let* '(l, (success, err)) := tryLock l in
  match err with
  | Some e => ret (l, Some (false, Some e))
  | None =>
      if success then ret (l, Some (true, None))
      else
        let* _ := newSubscribe (regexWatch (normalize (key l)) false) in
        lockWait cases l
  end.

(** [Unlock].  The send on [unlockCh] is taken by the [select] of
    [holdLock]; with no goroutine parked there it blocks for ever and
    [Unlock] does not return: [None]. *)
Definition Unlock (l : redisLock) : IO (option (redisLock * option error)) :=
  match holder l with
  | Renewing _ =>
      let* l := holdSelect unlockCh_recv l in
      let* '(_, err) := AtomicDelete (redis l) (key l) (last l) in
      match err with
      | Some e => ret (Some (l, Some e))
      | None => ret (Some (setLast l None, None))
      end
  | _ => ret None
  end.

(** The conditional write that [tryLock] and [hold] both make. *)
Definition lockWrite (l : redisLock) : IO (bool * option KVPair * option error) :=
  AtomicPut (redis l) (key l) (value l) (last l) (Some {| TTL := ttl l |}).

(** The lock [l] waits through a run of deliveries of its watch: on each of
    them, the other clients having acted, the conditional write is made
    again and fails with a not-found, modified or exists error. *)
Inductive keepsWaiting (l : redisLock)
  : list ((World -> World) * LockCase) -> World -> World -> Prop :=
| waits_nil w : keepsWaiting l [] w w
| waits_cons others rest w w1 w2 e :
    lockWrite l (interfere others w) = ((false, None, Some e), w1) ->
    isCASError (Some e) = true ->
    keepsWaiting l rest w1 w2 ->
    keepsWaiting l ((others, watch_recv) :: rest) w w2.

(** A codec that encodes every pair. *)
Definition encodesAll (c : Codec) : Prop :=
  forall kv, snd (Encode c (Some kv)) = None.

(** The other clients leave the key [k] in the store when it is there. *)
Definition keeps (k : string) (others : World -> World) : Prop :=
  forall w, is_Some (db w !! k) -> is_Some (db (others w) !! k).

(** A script that makes the conditional delete: on a key that holds what
    the client expects, it deletes it and replies no error. *)
Definition deletesOnMatch (script : client.Script) : Prop :=
  forall k old ttl m,
    m !! k = Some (old, ttl) -> script [cmdCAD; k; old] m = (delete k m, None).

(** ** The client of a configuration *)

(** The three errors of [newClient]. *)
Definition ErrMultipleEndpointsUnsupported : error :=
  errorString "redis: does not support multiple endpoints".
Definition ErrMasterSetMustBeProvided : error :=
  errorString "master set name must be provided".
Definition ErrInvalidRoutesOptions : error :=
  errorString "RouteByLatency and RouteRandomly options are only allowed with the ClusterClient".

Module Sentinel.
(** [Sentinel] *)
Record t : Type := {
  MasterName : string;
  Username : string;
  Password : string;
  ClusterClient : bool;
  RouteByLatency : bool;
  RouteRandomly : bool;
  ReplicaOnly : bool;
  UseDisconnectedReplicas : bool
}.
End Sentinel.

Section Configuration.

(** [tls.Config], of which the package only passes pointers on. *)
Variable tlsConfig : Type.

(** [Config]; the two pointers are options. *)
Record Config : Type := {
  TLS_ : option tlsConfig;
  Username : string;
  Password : string;
  DB : Z;
  Sentinel_ : option Sentinel.t;
  PoolSize : Z;
  MaxActiveConns : Z
}.

(** [redis.FailoverOptions], the fields that [newClient] sets. *)
Record FailoverOptions : Type := {
  SentinelAddrs : list string;
  SentinelUsername : string;
  SentinelPassword : string;
  fo_MasterName : string;
  fo_RouteByLatency : bool;
  fo_RouteRandomly : bool;
  fo_ReplicaOnly : bool;
  fo_UseDisconnectedReplicas : bool;
  fo_Username : string;
  fo_Password : string;
  fo_DB : Z;
  fo_DialTimeout : Duration;
  fo_ReadTimeout : Duration;
  fo_WriteTimeout : Duration;
  ContextTimeoutEnabled : bool;
  fo_TLSConfig : option tlsConfig;
  fo_PoolSize : Z;
  fo_MaxActiveConns : Z
}.

(** [redis.Options], the fields that [newClient] sets; the others of the
    last six keep their zero value when [options] is nil. *)
Record Options : Type := {
  Addr : string;
  DialTimeout : Duration;
  ReadTimeout : Duration;
  WriteTimeout : Duration;
  TLSConfig : option tlsConfig;
  o_Username : string;
  o_Password : string;
  o_DB : Z;
  o_PoolSize : Z;
  o_MaxActiveConns : Z
}.

(** The client that [newClient] builds, by its constructor. *)
Inductive UniversalClient : Type :=
| NewFailoverClusterClient (cfg : FailoverOptions)
| NewFailoverClient (cfg : FailoverOptions)
| NewClient (opt : Options).

(** How a call of [newClient] ends: with a client, with an error, or in the
    panic of [endpoints[0]] on an empty slice. *)
Inductive Built : Type :=
| built (client : UniversalClient)
| failed (err : error)
| panicked.

Definition newClient (endpoints : list string) (options : option Config) : Built :=
  match options, (match options with Some o => Sentinel_ o | None => None end) with
  | Some options, Some sentinel =>
      if bool_decide (Sentinel.MasterName sentinel = "") then failed ErrMasterSetMustBeProvided
      else if negb (Sentinel.ClusterClient sentinel) &&
              (Sentinel.RouteByLatency sentinel || Sentinel.RouteRandomly sentinel)
      then failed ErrInvalidRoutesOptions
      else
        let cfg := {|
          SentinelAddrs := endpoints;
          SentinelUsername := Sentinel.Username sentinel;
          SentinelPassword := Sentinel.Password sentinel;
          fo_MasterName := Sentinel.MasterName sentinel;
          fo_RouteByLatency := Sentinel.RouteByLatency sentinel;
          fo_RouteRandomly := Sentinel.RouteRandomly sentinel;
          fo_ReplicaOnly := Sentinel.ReplicaOnly sentinel;
          fo_UseDisconnectedReplicas := Sentinel.UseDisconnectedReplicas sentinel;
          fo_Username := Username options;
          fo_Password := Password options;
          fo_DB := DB options;
          fo_DialTimeout := 5 * Second;
          fo_ReadTimeout := 30 * Second;
          fo_WriteTimeout := 30 * Second;
          ContextTimeoutEnabled := true;
          fo_TLSConfig := TLS_ options;
          fo_PoolSize := PoolSize options;
          fo_MaxActiveConns := MaxActiveConns options
        |} in
        if Sentinel.ClusterClient sentinel then built (NewFailoverClusterClient cfg)
        else built (NewFailoverClient cfg)
  | _, _ =>
      if bool_decide (1 < length endpoints)%nat then failed ErrMultipleEndpointsUnsupported
      else
        match endpoints with
        | [] => panicked
        | endpoint :: _ =>
            let opt := {|
              Addr := endpoint;
              DialTimeout := 5 * Second;
              ReadTimeout := 30 * Second;
              WriteTimeout := 30 * Second;
              TLSConfig := None; o_Username := ""; o_Password := ""; o_DB := 0;
              o_PoolSize := 0; o_MaxActiveConns := 0
            |} in
            match options with
            | Some options =>
                built (NewClient {|
                  Addr := Addr opt;
                  DialTimeout := DialTimeout opt;
                  ReadTimeout := ReadTimeout opt;
                  WriteTimeout := WriteTimeout opt;
                  TLSConfig := TLS_ options;
                  o_Username := Username options;
                  o_Password := Password options;
                  o_DB := DB options;
                  o_PoolSize := PoolSize options;
                  o_MaxActiveConns := MaxActiveConns options
                |})
            | None => built (NewClient opt)
            end
        end
  end.

End Configuration.

Arguments newClient {tlsConfig} endpoints options.
Arguments built {tlsConfig} client.
Arguments failed {tlsConfig} err.
Arguments panicked {tlsConfig}.

(** ** The subscription *)

(** One round of the [for]/[select] of [receiveLoop]: [closeCh] is closed,
    the context is done, or neither and [ReceiveMessage] returns. *)
Inductive Round : Type :=
| closeCh_closed
| ctx_Done_closed
| ReceiveMessage (msg : option Message) (err : option error).

(** [receiveLoop] through the rounds it is given: what it has sent on
    [msgCh], and whether it has returned, which closes [msgCh]. *)
Fixpoint receiveLoop (rounds : list Round) (msgCh : list Message) : list Message * bool :=
  match rounds with
  | [] => (msgCh, false)
  | closeCh_closed :: _ => (msgCh, true)
  | ctx_Done_closed :: _ => (msgCh, true)
  | ReceiveMessage msg err :: rest =>
      match err with
      | Some _ => (msgCh, true)
      | None =>
          match msg with
          | Some m => receiveLoop rest (msgCh ++ [m])
          | None => receiveLoop rest msgCh
          end
      end
  end.

(** The rounds in which [receiveLoop] returns. *)
Definition stops (round : Round) : Prop :=
  match round with
  | closeCh_closed | ctx_Done_closed => True
  | ReceiveMessage _ err => err <> None
  end.

(** ** A store to run the model on *)

Module Example.

(** A matcher for the server: glob patterns with [*] and [?]. *)
Fixpoint stringmatch (pattern : string) : string -> bool :=
  match pattern with
  | EmptyString => fun s => match s with EmptyString => true | _ => false end
  | String c p =>
      if Ascii.eqb c "*" then
        fix star (s : string) : bool :=
          stringmatch p s || match s with EmptyString => false | String _ s' => star s' end
      else
        fun s =>
          match s with
          | EmptyString => false
          | String d s' => (Ascii.eqb c "?" || Ascii.eqb c d) && stringmatch p s'
          end
  end.

(** An iteration for the server: the keys in the order of the keyspace,
    [count] of them per call, the cursor being the index of the next. *)
Definition paging (m : gmap string (string * Duration)) (cursor : nat) (count : Z)
    : list string * nat :=
  let ks := (map_to_list m).*1 in
  let n := Z.to_nat count in
  (take n (drop cursor ks), if (cursor + n <? length ks)%nat then (cursor + n)%nat else 0%nat).

(** A string with none of the two special characters of the matcher. *)
Fixpoint plain (s : string) : bool :=
  match s with
  | EmptyString => true
  | String c s' => negb (Ascii.eqb c "*") && negb (Ascii.eqb c "?") && plain s'
  end.

(** A codec that stores the value bytes alone. *)
Definition valueCodec : Codec := {|
  Encode := fun kv =>
    match kv with
    | Some kv => (Value kv, None)
    | None => ("", Some (errorString "KVPair is nil"))
    end;
  Decode := fun b kv => inl (mkKVPair (Key kv) b (LastIndex kv))
|}.

(** Modelled from the spec: the script that the package loads with
    [luaScript()], from a file that is not among the sources; it is the
    conditional write and the conditional delete of the spec (4.1): not
    found when the key is absent, modified when what is stored is not what
    the client expects, and the write or the delete otherwise.  The error
    texts are those [runScript] looks for. *)
Definition luaScript : client.Script := fun args m =>
  match args with
  | cmd :: k :: old :: rest =>
      match m !! k with
      | None => (m, Some (errorString "redis: key is not found"))
      | Some (cur, _) =>
          if bool_decide (cur <> old) then (m, Some (errorString "redis: value has been changed"))
          else
            match rest with
            | [new; secs] =>
                if bool_decide (cmd = cmdCAS)
                then (<[k := (new, match NilZero.int_of_string secs with
                                   | Some n => Z.of_int n * Second
                                   | None => 0
                                   end)]> m, None)
                else (m, Some (errorString "redis: unknown command"))
            | [] =>
                if bool_decide (cmd = cmdCAD) then (delete k m, None)
                else (m, Some (errorString "redis: unknown command"))
            | _ => (m, Some (errorString "redis: wrong number of arguments"))
            end
      end
  | _ => (m, Some (errorString "redis: wrong number of arguments"))
  end.

Definition store : Store := {| script := luaScript; codec := valueCodec |}.

(** An empty server at time [t], a network that loses nothing. *)
Definition world (t : Z) : World := mkWorld ∅ t [] [].

(** The same with the next command lost. *)
Definition offline (t : Z) (e : error) : World := mkWorld ∅ t [Some e] [].

End Example.

(** ** More stores to run the model on *)

Module Sample.

(** A codec that refuses a pair with no value. *)
Definition strictCodec : Codec := {|
  Encode := fun kv =>
    match kv with
    | Some kv =>
        if bool_decide (Value kv = "") then ("", Some (errorString "codec: empty value"))
        else (Value kv, None)
    | None => ("", Some (errorString "KVPair is nil"))
    end;
  Decode := fun b kv => inl (mkKVPair (Key kv) b (LastIndex kv))
|}.

Definition strict : Store := {| script := Example.luaScript; codec := strictCodec |}.

(** A server on which every command to come is lost. *)
Definition down (t : Z) (e : error) (commands : nat) : World :=
  mkWorld ∅ t (replicate commands (Some e)) [].

End Sample.

(** * Properties *)

Lemma send_spec c w : client.send c w = (lost w, sent c w).
Proof. unfold sent, lost, client.send. destruct (net w); reflexivity. Qed.

Lemma sent_db c w : db (sent c w) = db w.
Proof. unfold sent, client.send. destruct (net w); reflexivity. Qed.

Lemma sent_now c w : now (sent c w) = now w.
Proof. unfold sent, client.send. destruct (net w); reflexivity. Qed.

Lemma sent_log c w : log (sent c w) = log w ++ [c].
Proof. unfold sent, client.send. destruct (net w); reflexivity. Qed.

Lemma sent_net c w : net (sent c w) = tail (net w).
Proof. unfold sent, client.send. destruct (net w); reflexivity. Qed.

Lemma reliable_lost w : reliable w -> lost w = None.
Proof.
  unfold reliable, lost. destruct (net w) as [|fate rest]; [reflexivity|].
  intros H. apply Forall_cons in H. tauto.
Qed.

Lemma reliable_sent c w : reliable w -> reliable (sent c w).
Proof.
  unfold reliable. rewrite sent_net. destruct (net w) as [|fate rest]; simpl; [tauto|].
  intros H. apply Forall_cons in H. tauto.
Qed.

Lemma reliable_withDb m w : reliable w -> reliable (withDb m w).
Proof. exact (fun H => H). Qed.

Create HintDb world discriminated.
Create Rewrite HintDb world.
#[local] Hint Rewrite sent_db sent_now sent_log sent_net : world.
#[local] Hint Resolve reliable_sent reliable_withDb reliable_lost : world.

(** *** The commands, one by one *)

(** Takes the comparisons of integers in the goal and the context by cases. *)
Ltac split_comparisons :=
  repeat match goal with
         | |- context [(?a <? ?b)] => destruct (Z.ltb_spec a b); cbn [andb orb negb] in *
         | |- context [(?a =? ?b)] => destruct (Z.eqb_spec a b); cbn [andb orb negb] in *
         | H : context [(?a <? ?b)] |- _ => destruct (Z.ltb_spec a b); cbn [andb orb negb] in *
         | H : context [(?a =? ?b)] |- _ => destruct (Z.eqb_spec a b); cbn [andb orb negb] in *
         end.

(** go-redis always finds an expiry that the server accepts for a positive
    duration: the duration in whole milliseconds, and one millisecond for
    less. *)
Lemma timed_valid ttl : 0 < ttl -> client.valid (client.timed ttl) = true.
Proof.
  intros Hpos.
  pose proof (Z.quot_rem' ttl Millisecond) as Hms.
  pose proof (Z.rem_bound_pos ttl Millisecond) as Hms'.
  pose proof (Z.quot_rem' ttl Second) as Hsec.
  pose proof (Z.rem_bound_pos ttl Second) as Hsec'.
  unfold client.timed, client.usePrecise, client.formatMs, client.formatSec, client.valid.
  unfold Second, Millisecond in *.
  specialize (Hms' ltac:(lia) ltac:(lia)). specialize (Hsec' ltac:(lia) ltac:(lia)).
  split_comparisons; try reflexivity; lia.
Qed.

Lemma timed_expiry ttl cur :
  0 < ttl ->
  client.expiry (client.timed ttl) cur = Z.max Millisecond (ttl ÷ Millisecond * Millisecond).
Proof.
  intros Hpos.
  pose proof (Z.quot_rem' ttl Millisecond) as Hms.
  pose proof (Z.rem_bound_pos ttl Millisecond) as Hms'.
  pose proof (Z.quot_rem' ttl Second) as Hsec.
  pose proof (Z.rem_bound_pos ttl Second) as Hsec'.
  unfold client.timed, client.usePrecise, client.formatMs, client.formatSec, client.expiry.
  unfold Second, Millisecond in *.
  specialize (Hms' ltac:(lia) ltac:(lia)). specialize (Hsec' ltac:(lia) ltac:(lia)).
  split_comparisons; lia.
Qed.

Lemma setExpire_valid ttl : client.valid (client.setExpire ttl) = true.
Proof.
  unfold client.setExpire.
  destruct (Z.ltb_spec 0 ttl); [apply timed_valid; assumption|].
  destruct (ttl =? client.KeepTTL); reflexivity.
Qed.

Lemma setNXExpire_valid ttl :
  0 <= ttl \/ ttl = client.KeepTTL -> client.valid (client.setNXExpire ttl) = true.
Proof.
  intros Httl. unfold client.setNXExpire.
  destruct (Z.eqb_spec ttl 0); [reflexivity|].
  destruct (Z.eqb_spec ttl client.KeepTTL); [reflexivity|].
  apply timed_valid. lia.
Qed.


(** The expiry of an entry that [SetNX] creates: none for a zero duration
    and for [redis.KeepTTL], the duration in whole milliseconds otherwise. *)
Lemma setNXExpire_expiry ttl :
  client.expiry (client.setNXExpire ttl) None =
  if 0 <? ttl then Z.max Millisecond (ttl ÷ Millisecond * Millisecond)
  else if ttl =? client.KeepTTL then 0
  else if ttl =? 0 then 0
  else client.expiry (client.timed ttl) None.
Proof.
  unfold client.setNXExpire.
  destruct (Z.ltb_spec 0 ttl) as [Hpos|Hle].
  - destruct (Z.eqb_spec ttl 0); [lia|].
    destruct (Z.eqb_spec ttl client.KeepTTL) as [Hk|]; [unfold client.KeepTTL in Hk; lia|].
    apply timed_expiry. exact Hpos.
  - destruct (Z.eqb_spec ttl 0) as [->|]; [reflexivity|].
    destruct (Z.eqb_spec ttl client.KeepTTL); reflexivity.
Qed.

(** The expiry of an entry that [Set] writes: the duration in whole
    milliseconds when it is positive, the expiry that the key had for
    [redis.KeepTTL], none otherwise. *)
Lemma setExpire_expiry ttl cur :
  client.expiry (client.setExpire ttl) cur =
  if 0 <? ttl then Z.max Millisecond (ttl ÷ Millisecond * Millisecond)
  else if ttl =? client.KeepTTL then match cur with Some (_, kept) => kept | None => 0 end
  else 0.
Proof.
  unfold client.setExpire.
  destruct (Z.ltb_spec 0 ttl) as [Hpos|Hle]; [apply timed_expiry; exact Hpos|].
  destruct (ttl =? client.KeepTTL); reflexivity.
Qed.

Lemma SetNX_spec key blob ttl w :
  client.SetNX key blob ttl w =
  match lost w with
  | Some e => (mkCmd false (Some e), sent (SETNX key blob ttl) w)
  | None =>
      if client.valid (client.setNXExpire ttl) then
        match db w !! key with
        | Some _ => (mkCmd false None, sent (SETNX key blob ttl) w)
        | None =>
            (mkCmd true None,
             withDb (<[key := (blob, client.expiry (client.setNXExpire ttl) None)]> (db w))
               (sent (SETNX key blob ttl) w))
        end
      else (mkCmd false (Some client.invalidExpire), sent (SETNX key blob ttl) w)
  end.
Proof.
  unfold client.SetNX, bind. rewrite send_spec.
  destruct (lost w); [reflexivity|].
  destruct (client.valid (client.setNXExpire ttl)); [|reflexivity].
  unfold client.lookup. rewrite sent_db.
  destruct (db w !! key); [reflexivity|].
  unfold client.update, ret, withDb. rewrite sent_db. reflexivity.
Qed.

Lemma Set_spec key blob ttl w :
  client.Set_ key blob ttl w =
  match lost w with
  | Some e => (mkCmd "" (Some e), sent (SET key blob ttl) w)
  | None =>
      (mkCmd "OK" None,
       withDb (<[key := (blob, client.expiry (client.setExpire ttl) (db w !! key))]> (db w))
         (sent (SET key blob ttl) w))
  end.
Proof.
  unfold client.Set_, bind. rewrite send_spec.
  destruct (lost w); [reflexivity|].
  rewrite setExpire_valid.
  unfold client.lookup, client.update, ret, withDb. rewrite sent_db. reflexivity.
Qed.

Lemma Get_spec key w :
  client.Get key w =
  (match lost w with
   | Some e => mkCmd "" (Some e)
   | None =>
       match db w !! key with
       | Some (blob, _) => mkCmd blob None
       | None => mkCmd "" (Some Nil)
       end
   end, sent (GET key) w).
Proof.
  unfold client.Get, bind. rewrite send_spec.
  destruct (lost w); [reflexivity|].
  unfold client.lookup. rewrite sent_db.
  destruct (db w !! key) as [[blob ?]|]; reflexivity.
Qed.

Lemma Exists_spec key w :
  client.Exists key w =
  (match lost w with
   | Some e => mkCmd 0 (Some e)
   | None => mkCmd (match db w !! key with Some _ => 1 | None => 0 end) None
   end, sent (EXISTS key) w).
Proof.
  unfold client.Exists, bind. rewrite send_spec.
  destruct (lost w); [reflexivity|].
  unfold client.lookup. rewrite sent_db. reflexivity.
Qed.

Lemma Run_spec script args w :
  client.Run script args w =
  match lost w with
  | Some e => (mkCmd tt (Some e), sent (EVAL args) w)
  | None =>
      (mkCmd tt (snd (script args (db w))),
       withDb (fst (script args (db w))) (sent (EVAL args) w))
  end.
Proof.
  unfold client.Run, bind. rewrite send_spec.
  destruct (lost w); [reflexivity|].
  rewrite sent_db. destruct (script args (db w)). reflexivity.
Qed.

Lemma sequenceNum_spec w : sequenceNum w = (now w mod Second, w).
Proof. reflexivity. Qed.

(** Opens [AtomicPut] up to its two branches, the clock read. *)
Ltac open_AtomicPut := unfold AtomicPut, bind; rewrite sequenceNum_spec.

(** *** C1 *)




(** *** C4 *)

(** What [runScript] does with the error of the script run: the two texts
    of the script become the sentinels, any other error comes back as it
    is. *)
Lemma runScript_spec r args w :
  runScript r args w =
  (match Err (fst (client.Run (script r) args w)) with
   | Some e =>
       if strings.Contains (Error e) "redis: key is not found" then Some ErrKeyNotFound
       else if strings.Contains (Error e) "redis: value has been changed" then Some ErrKeyModified
       else Some e
   | None => None
   end, snd (client.Run (script r) args w)).
Proof.
  unfold runScript, bind. destruct (client.Run (script r) args w) as [reply w'].
  simpl. destruct (Err reply) as [e|]; [|reflexivity].
  destruct (strings.Contains (Error e) "redis: key is not found"); [reflexivity|].
  destruct (strings.Contains (Error e) "redis: value has been changed"); reflexivity.
Qed.

(** A scripted command that is lost on the way fails with the transport
    error itself, unless its text holds one of the two texts of the
    script. *)
Lemma runScript_verbatim r args w e :
  lost w = Some e ->
  strings.Contains (Error e) "redis: key is not found" = false ->
  strings.Contains (Error e) "redis: value has been changed" = false ->
  fst (runScript r args w) = Some e.
Proof.
  intros Hnet H1 H2. rewrite runScript_spec, Run_spec, Hnet. simpl.
  rewrite H1, H2. reflexivity.
Qed.

(** So does a read, unless the error is [redis.Nil]. *)
Lemma get_verbatim r key w e :
  lost w = Some e -> e <> Nil -> fst (get r key w) = (None, Some e).
Proof.
  intros Hnet Hnil. unfold get, bind. rewrite Get_spec, Hnet. simpl.
  rewrite bool_decide_eq_false_2 by exact Hnil. reflexivity.
Qed.

(** And an unconditional write. *)
Lemma Put_verbatim r key value opts w blob e :
  Encode (codec r) (Some (mkKVPair key value (now w mod Second))) = (blob, None) ->
  lost w = Some e -> fst (Put r key value opts w) = Some e.
Proof.
  intros Henc Hnet. unfold Put, bind. rewrite sequenceNum_spec.
  unfold setTTL, bind. rewrite Henc, Set_spec, Hnet. reflexivity.
Qed.

(** C4, where the code departs from it.  The claim: an error of the store
    that is not one of the not-found, modified and exists conditions reaches
    the caller as it is; in particular [AtomicPut] with a nil [previous]
    returns the store's own error when the set-if-absent command fails in
    transit.  The code: [setNX] reads [Val()] of the command and never its
    [Err()], so whatever the transport error [e] is, the caller gets
    [ErrKeyExists], also when the key is absent. *)
Theorem AtomicPut_nil_transport_error (r : Store) (key value : string)
    (opts : option WriteOptions) (w : World) (blob : string) (e : error) :
  Encode (codec r) (Some (mkKVPair key value (now w mod Second))) = (blob, None) ->
  lost w = Some e ->
  AtomicPut r key value None opts w =
  ((false, None, Some ErrKeyExists), sent (SETNX (normalize key) blob (expiration opts)) w).
Proof.
  intros Henc Hnet.
  open_AtomicPut.
  unfold setNX, bind. rewrite Henc, SetNX_spec, Hnet. reflexivity.
Qed.

Lemma AtomicPut_nil_transport_error_witness :
  db (Example.offline 7 (errorString "dial tcp 127.0.0.1:6379: connect: connection refused"))
    !! normalize "/k" = None /\
  fst (AtomicPut Example.store "/k" "v" None None
         (Example.offline 7 (errorString "dial tcp 127.0.0.1:6379: connect: connection refused"))) =
    (false, None, Some ErrKeyExists).
Proof.
  split; [reflexivity|].
  rewrite (AtomicPut_nil_transport_error Example.store "/k" "v" None
             (Example.offline 7 (errorString "dial tcp 127.0.0.1:6379: connect: connection refused"))
             "v" (errorString "dial tcp 127.0.0.1:6379: connect: connection refused"));
    reflexivity.
Defined.

(** *** C5 *)

Lemma Put_spec r key value opts w blob :
  Encode (codec r) (Some (mkKVPair key value (now w mod Second))) = (blob, None) ->
  Put r key value opts w =
  match lost w with
  | Some e => (Some e, sent (SET (normalize key) blob (expiration opts)) w)
  | None =>
      (None,
       withDb (<[normalize key :=
                  (blob, client.expiry (client.setExpire (expiration opts))
                           (db w !! normalize key))]> (db w))
         (sent (SET (normalize key) blob (expiration opts)) w))
  end.
Proof.
  intros Henc. unfold Put, bind. rewrite sequenceNum_spec.
  unfold setTTL, bind. rewrite Henc, Set_spec.
  destruct (lost w); reflexivity.
Qed.

Lemma Put_success r key value opts w w' :
  Put r key value opts w = (None, w') ->
  exists blob,
    Encode (codec r) (Some (mkKVPair key value (now w mod Second))) = (blob, None) /\
    db w' !! normalize key =
      Some (blob, client.expiry (client.setExpire (expiration opts)) (db w !! normalize key)).
Proof.
  intros HPut.
  destruct (Encode (codec r) (Some (mkKVPair key value (now w mod Second))))
    as [blob [err|]] eqn:Henc.
  - unfold Put, bind in HPut. rewrite sequenceNum_spec in HPut.
    unfold setTTL in HPut. rewrite Henc in HPut. discriminate.
  - exists blob. split; [reflexivity|].
    rewrite (Put_spec _ _ _ _ _ _ Henc) in HPut.
    destruct (lost w); [discriminate|].
    injection HPut as <-. simpl. apply lookup_insert_eq.
Qed.

Lemma AtomicPut_success r key value previous opts w item w' :
  AtomicPut r key value previous opts w = ((true, item, None), w') ->
  item = Some (mkKVPair key value (now w mod Second)).
Proof.
  open_AtomicPut.
  destruct previous as [prev|].
  - destruct (cas _ _ _ _ _ w) as [[e|] w1]; unfold ret; intros H; congruence.
  - destruct (setNX _ _ _ _ w) as [[e|] w1]; unfold ret; intros H; congruence.
Qed.

(** C5, as the code has it.  A successful [Put] stores, and a successful
    [AtomicPut] stores and returns, a record whose version token is read
    from the clock when the write is made: it is the nanosecond field of the
    time, a number from 0 to 999999999.  Between two writes made within the
    same second of the clock the token does not decrease; nothing more is
    promised across writes. *)
Theorem version_token_is_nanosecond (r : Store) (key value : string)
    (previous : option KVPair) (opts : option WriteOptions) (w : World) :
  let token := now w mod Second in
  0 <= token < Second /\
  (forall w', Put r key value opts w = (None, w') ->
     exists blob,
       Encode (codec r) (Some (mkKVPair key value token)) = (blob, None) /\
       db w' !! normalize key =
         Some (blob, client.expiry (client.setExpire (expiration opts))
                       (db w !! normalize key))) /\
  (forall item w', AtomicPut r key value previous opts w = ((true, item, None), w') ->
     item = Some (mkKVPair key value token)) /\
  (forall later : World,
     now w <= now later -> now w / Second = now later / Second ->
     token <= now later mod Second).
Proof.
  intros token. unfold token. repeat split.
  - apply Z.mod_pos_bound. reflexivity.
  - apply Z.mod_pos_bound. reflexivity.
  - intros w'. apply Put_success.
  - intros item w'. apply AtomicPut_success.
  - intros later Hle Hsec.
    pose proof (Z.div_mod (now w) Second ltac:(discriminate)) as H1.
    pose proof (Z.div_mod (now later) Second ltac:(discriminate)) as H2.
    rewrite Hsec in H1. lia.
Qed.

(** C5 as it is stated fails: a key is created in the last nanosecond of a
    second; one nanosecond later, the clock having moved forward, the key is
    written again and another key is created.  Both later writes succeed,
    and both carry a token smaller than the token of the first write. *)
Lemma version_token_decreases :
  exists (first second third : KVPair) (w1 w2 w3 : World),
    AtomicPut Example.store "a" "1" None None (Example.world 1999999999) =
      ((true, Some first, None), w1) /\
    AtomicPut Example.store "a" "2" (Some first) None (elapse 1 w1) =
      ((true, Some second, None), w2) /\
    AtomicPut Example.store "b" "3" None None (elapse 1 w1) =
      ((true, Some third, None), w3) /\
    now w1 < now (elapse 1 w1) /\
    LastIndex second < LastIndex first /\
    LastIndex third < LastIndex first.
Proof.
  exists (mkKVPair "a" "1" 999999999), (mkKVPair "a" "2" 0), (mkKVPair "b" "3" 0).
  do 3 eexists.
  split; [vm_compute; reflexivity|].
  split; [vm_compute; reflexivity|].
  split; [vm_compute; reflexivity|].
  split; [vm_compute; reflexivity|].
  split; vm_compute; reflexivity.
Qed.

(** *** C10 *)

Lemma normalize_slash (k : string) : normalize ("/" +:+ k) = k.
Proof.
  unfold normalize, strings.TrimPrefix, strings.HasPrefix.
  change ("/" +:+ k) with (String "/" k). cbn.
  destruct k; reflexivity.
Qed.

Lemma normalize_id (k : string) : strings.HasPrefix k "/" = false -> normalize k = k.
Proof. unfold normalize, strings.TrimPrefix. intros ->. reflexivity. Qed.

Lemma normalize_strips (k : string) :
  strings.HasPrefix k "/" = true -> "/" +:+ normalize k = k.
Proof.
  unfold strings.HasPrefix. intros H.
  destruct k as [|c k]; [vm_compute in H; discriminate|].
  assert (E : String.prefix "/" (String c k) =
              if Ascii.ascii_dec "/" c then String.prefix "" k else false) by reflexivity.
  rewrite E in H. destruct (Ascii.ascii_dec "/" c) as [<-|]; [|discriminate].
  change (String "/" k) with ("/" +:+ k). rewrite normalize_slash. reflexivity.
Qed.

(** The operations that take the key through [normalize] only. *)
Lemma same_address (r : Store) (k1 k2 : string) :
  normalize k1 = normalize k2 ->
  Get r k1 = Get r k2 /\ Exists r k1 = Exists r k2 /\ Delete r k1 = Delete r k2 /\
  AtomicDelete r k1 = AtomicDelete r k2 /\ Watch r k1 = Watch r k2 /\
  (forall stringmatch iterate fuel,
     List stringmatch iterate fuel r k1 = List stringmatch iterate fuel r k2 /\
     DeleteTree stringmatch iterate fuel r k1 = DeleteTree stringmatch iterate fuel r k2 /\
     WatchTree stringmatch iterate fuel r k1 = WatchTree stringmatch iterate fuel r k2).
Proof.
  intros H.
  unfold Get, Exists, Delete, AtomicDelete, Watch, List, DeleteTree, WatchTree.
  rewrite H. repeat split.
Qed.

Lemma Exists_present r k w entry :
  lost w = None -> db w !! normalize k = Some entry -> fst (Exists r k w) = (true, None).
Proof.
  intros Hnet Hk. unfold Exists, bind. rewrite Exists_spec, Hnet, Hk. reflexivity.
Qed.

Lemma Delete_removes r k w :
  lost w = None -> fst (Delete r k w) = None /\ db (snd (Delete r k w)) !! normalize k = None.
Proof.
  intros Hnet. unfold Delete, client.Del, bind. rewrite send_spec, Hnet.
  unfold client.update, ret. simpl. split; [reflexivity|]. apply lookup_delete_eq.
Qed.

Lemma get_present r k w blob ttl :
  lost w = None -> db w !! k = Some (blob, ttl) ->
  fst (get r k w) =
  match Decode (codec r) blob zeroKVPair with
  | inr err => (None, Some err)
  | inl val =>
      (Some (if bool_decide (Key val = "") then mkKVPair k (Value val) (LastIndex val) else val),
       None)
  end.
Proof.
  intros Hnet Hk. unfold get, bind. rewrite Get_spec, Hnet, Hk. simpl.
  destruct (Decode (codec r) blob zeroKVPair); reflexivity.
Qed.

Lemma get_absent r k w :
  lost w = None -> db w !! k = None ->
  get r k w = ((None, Some ErrKeyNotFound), sent (GET k) w).
Proof.
  intros Hnet Hk. unfold get, bind. rewrite Get_spec, Hnet, Hk. reflexivity.
Qed.

(** The one command that [AtomicPut] sends, if it sends any, names the
    normalized key. *)
Lemma AtomicPut_address r key value previous opts w :
  let w' := snd (AtomicPut r key value previous opts w) in
  log w' = log w \/
  (exists blob ttl, log w' = log w ++ [SETNX (normalize key) blob ttl]) \/
  (exists old new secs, log w' = log w ++ [EVAL [cmdCAS; normalize key; old; new; secs]]).
Proof.
  open_AtomicPut. destruct previous as [prev|].
  - unfold cas.
    destruct (Encode (codec r) (Some (mkKVPair key value (now w mod Second))))
      as [new [err|]]; [left; reflexivity|].
    destruct (Encode (codec r) (Some prev)) as [old [err|]]; [left; reflexivity|].
    right. right. exists old, new, (formatSec (expiration opts)).
    rewrite runScript_spec, Run_spec.
    destruct (lost w); simpl.
    + destruct (if strings.Contains _ _ then _ else _); simpl; apply sent_log.
    + destruct (script r _ (db w)) as [m [e|]]; simpl;
        [destruct (if strings.Contains _ _ then _ else _)|]; simpl; apply sent_log.
  - unfold setNX.
    destruct (Encode (codec r) (Some (mkKVPair key value (now w mod Second))))
      as [blob [err|]]; [left; reflexivity|].
    right. left. exists blob, (expiration opts).
    unfold bind. rewrite SetNX_spec.
    destruct (lost w); simpl; [apply sent_log|].
    destruct (client.valid (client.setNXExpire (expiration opts))); simpl; [|apply sent_log].
    destruct (db w !! normalize key); simpl; apply sent_log.
Qed.

(** C10, as the code has it.  Every operation reaches the store under
    [normalize key], the key less one leading slash: two keys with the same
    normal form are the same entry to [Get], [Exists], [Delete],
    [AtomicDelete], [Watch], [List], [DeleteTree] and [WatchTree], and [Put]
    and [AtomicPut] write at the normal form.  For a key [k] that does not
    itself begin with a slash, ["/" +:+ k] and [k] are therefore the same
    entry: a [Put] under either is seen by [Exists] and [Get] under [k], and
    a [Delete] under [k] removes it. *)
Theorem leading_slash_same_entry (r : Store) (k : string) :
  strings.HasPrefix k "/" = false ->
  normalize ("/" +:+ k) = k /\ normalize k = k /\
  (Get r ("/" +:+ k) = Get r k /\ Exists r ("/" +:+ k) = Exists r k /\
   Delete r ("/" +:+ k) = Delete r k /\ AtomicDelete r ("/" +:+ k) = AtomicDelete r k /\
   Watch r ("/" +:+ k) = Watch r k /\
   forall stringmatch iterate fuel,
     List stringmatch iterate fuel r ("/" +:+ k) = List stringmatch iterate fuel r k /\
     DeleteTree stringmatch iterate fuel r ("/" +:+ k) = DeleteTree stringmatch iterate fuel r k /\
     WatchTree stringmatch iterate fuel r ("/" +:+ k) = WatchTree stringmatch iterate fuel r k) /\
  (forall (key value : string) (previous : option KVPair) (opts : option WriteOptions)
          (w : World),
     key = k \/ key = "/" +:+ k ->
     let w' := snd (AtomicPut r key value previous opts w) in
     log w' = log w \/
     (exists blob ttl, log w' = log w ++ [SETNX k blob ttl]) \/
     (exists old new secs, log w' = log w ++ [EVAL [cmdCAS; k; old; new; secs]])) /\
  (forall (key value blob : string) (opts : option WriteOptions) (w : World),
     key = k \/ key = "/" +:+ k ->
     Encode (codec r) (Some (mkKVPair key value (now w mod Second))) = (blob, None) ->
     reliable w ->
     let w' := snd (Put r key value opts w) in
     fst (Put r key value opts w) = None /\
     db w' !! k =
       Some (blob, client.expiry (client.setExpire (expiration opts)) (db w !! k)) /\
     fst (Exists r k w') = (true, None) /\
     fst (Get r k w') =
       match Decode (codec r) blob zeroKVPair with
       | inr err => (None, Some err)
       | inl val =>
           (Some (if bool_decide (Key val = "")
                  then mkKVPair k (Value val) (LastIndex val) else val), None)
       end /\
     fst (Delete r k w') = None /\
     db (snd (Delete r k w')) !! k = None).
Proof.
  intros Hk.
  assert (Hid : normalize k = k) by (apply normalize_id; exact Hk).
  assert (Hsl : normalize ("/" +:+ k) = normalize k) by (rewrite normalize_slash, Hid; reflexivity).
  assert (Hnk : forall key, key = k \/ key = "/" +:+ k -> normalize key = k).
  { intros key [-> | ->]; [exact Hid | apply normalize_slash]. }
  split; [apply normalize_slash|]. split; [exact Hid|]. split; [|split].
  - destruct (same_address r ("/" +:+ k) k Hsl) as (? & ? & ? & ? & ? & ?). tauto.
  - intros key value previous opts w Hkey.
    rewrite <- (Hnk key Hkey). apply AtomicPut_address.
  - intros key value blob opts w Hkey Henc Hrel w'.
    set (d := client.expiry (client.setExpire (expiration opts)) (db w !! k)).
    assert (Hput : Put r key value opts w =
                   (None, withDb (<[k := (blob, d)]> (db w))
                            (sent (SET k blob (expiration opts)) w))).
    { rewrite (Put_spec _ _ _ _ _ _ Henc), (Hnk key Hkey), (reliable_lost _ Hrel). reflexivity. }
    assert (Hnet : lost w' = None).
    { unfold w'. rewrite Hput. simpl. auto with world. }
    assert (Hdb : db w' !! k = Some (blob, d)).
    { unfold w'. rewrite Hput. simpl. apply lookup_insert_eq. }
    split; [rewrite Hput; reflexivity|]. split; [exact Hdb|].
    split; [apply (Exists_present r k w' (blob, d)); [exact Hnet | rewrite Hid; exact Hdb]|].
    split; [unfold Get; rewrite Hid; apply (get_present r k w' blob d Hnet Hdb)|].
    pose proof (Delete_removes r k w' Hnet) as Hdel. rewrite Hid in Hdel. exact Hdel.
Qed.

Lemma leading_slash_same_entry_witness :
  fst (Get Example.store "k" (snd (Put Example.store "/k" "v" None (Example.world 7)))) =
    (Some (mkKVPair "k" "v" 0), None) /\
  fst (Exists Example.store "k" (snd (Put Example.store "/k" "v" None (Example.world 7)))) =
    (true, None).
Proof.
  destruct (leading_slash_same_entry Example.store "k" eq_refl) as (_ & _ & _ & _ & Hput).
  destruct (Hput "/k" "v" "v" None (Example.world 7)) as (_ & _ & Hex & Hget & _).
  - right. reflexivity.
  - reflexivity.
  - constructor.
  - split; [rewrite Hget; reflexivity | exact Hex].
Defined.

(** C10 as it is stated fails on a key that begins with a slash: ["//a"] and
    ["/a"] differ by one leading slash, a [Put] under the first writes the
    entry ["/a"] and a [Get] under the second reads the entry ["a"]. *)
Lemma leading_slash_not_same_entry :
  normalize "//a" = "/a" /\ normalize "/a" = "a" /\
  fst (Put Example.store "//a" "v" None (Example.world 7)) = None /\
  fst (Get Example.store "/a" (snd (Put Example.store "//a" "v" None (Example.world 7)))) =
    (None, Some ErrKeyNotFound) /\
  fst (Exists Example.store "/a" (snd (Put Example.store "//a" "v" None (Example.world 7)))) =
    (false, None).
Proof. repeat split; vm_compute; reflexivity. Qed.

(** *** C9 *)

Section Scanning.

Variable stringmatch : string -> string -> bool.
Variable iterate : gmap string (string * Duration) -> nat -> Z -> list string * nat.

Lemma Scan_spec cursor pattern count w :
  client.Scan stringmatch iterate cursor pattern count w =
  (match lost w with
   | Some e => mkCmd ([], 0%nat) (Some e)
   | None =>
       mkCmd (List.filter (stringmatch pattern) (fst (iterate (db w) cursor count)),
              snd (iterate (db w) cursor count)) None
   end, sent (SCAN cursor pattern count) w).
Proof.
  unfold client.Scan, bind. rewrite send_spec.
  destruct (lost w); [reflexivity|]. rewrite sent_db.
  destruct (iterate (db w) cursor count). reflexivity.
Qed.

Lemma keysLoop_end fuel regex allKeys w :
  keysLoop stringmatch iterate fuel regex allKeys endCursor w = (Some (allKeys, None), w).
Proof. destruct fuel; reflexivity. Qed.

(** The rounds of [keys] after the first: they add to [allKeys] the
    matching keys of the rest of the iteration, when the fuel lasts. *)
Lemma keysLoop_tour fuel regex allKeys cursor w :
  reliable w -> cursor <> endCursor ->
  exists w',
    keysLoop stringmatch iterate fuel regex allKeys cursor w =
    ((fun ks => (allKeys ++ List.filter (stringmatch regex) ks, None)) <$>
       tour iterate fuel (db w) cursor, w') /\
    db w' = db w /\ reliable w'.
Proof.
  revert allKeys cursor w. induction fuel as [|fuel IH]; intros allKeys cursor w Hrel Hcur.
  - exists w. simpl. rewrite bool_decide_eq_false_2 by exact Hcur. auto.
  - simpl. rewrite bool_decide_eq_false_2 by exact Hcur.
    unfold bind. rewrite Scan_spec, (reliable_lost _ Hrel). simpl.
    destruct (iterate (db w) cursor defaultCount) as [page next]. simpl.
    destruct (decide (next = endCursor)) as [->|Hnext].
    + rewrite bool_decide_eq_true_2 by reflexivity. rewrite keysLoop_end.
      eexists. split; [reflexivity|]. autorewrite with world. auto with world.
    + rewrite bool_decide_eq_false_2 by exact Hnext.
      destruct (IH (allKeys ++ List.filter (stringmatch regex) page) next
                  (sent (SCAN cursor regex defaultCount) w)) as (w' & Hrun & Hdb & Hrel');
        [auto with world | exact Hnext |].
      exists w'. autorewrite with world in Hrun, Hdb. split; [|auto].
      rewrite Hrun. destruct (tour iterate fuel (db w) next) as [ks|]; simpl; [|reflexivity].
      rewrite List.filter_app, app_assoc. reflexivity.
Qed.

Lemma keys_tour fuel r regex w :
  reliable w ->
  exists w',
    keys stringmatch iterate fuel r regex w =
    ((fun ks => match List.filter (stringmatch regex) ks with
                | [] => ([], Some ErrKeyNotFound)
                | found => (found, None)
                end) <$> tour iterate (S fuel) (db w) startCursor, w') /\
    db w' = db w /\ reliable w'.
Proof.
  intros Hrel. unfold keys, bind. rewrite Scan_spec, (reliable_lost _ Hrel). simpl.
  destruct (iterate (db w) startCursor defaultCount) as [page next]. simpl.
  destruct (decide (next = endCursor)) as [->|Hnext].
  - rewrite bool_decide_eq_true_2 by reflexivity. rewrite keysLoop_end.
    exists (sent (SCAN startCursor regex defaultCount) w).
    split; [|autorewrite with world; auto with world].
    simpl. destruct (List.filter (stringmatch regex) page); reflexivity.
  - rewrite bool_decide_eq_false_2 by exact Hnext.
    destruct (keysLoop_tour fuel regex (List.filter (stringmatch regex) page) next
                (sent (SCAN startCursor regex defaultCount) w)) as (w' & Hrun & Hdb & Hrel');
      [auto with world | exact Hnext |].
    exists w'. autorewrite with world in Hrun, Hdb. split; [|auto].
    rewrite Hrun. destruct (tour iterate fuel (db w) next) as [ks|]; simpl; [|reflexivity].
    rewrite List.filter_app.
    destruct (List.filter (stringmatch regex) page ++ List.filter (stringmatch regex) ks);
      reflexivity.
Qed.

(** What [keys] finds in a full iteration: the keys of the store that match
    the pattern, and [ErrKeyNotFound] when there is none. *)
Lemma keys_full fuel r regex w :
  reliable w -> full iterate fuel (db w) ->
  exists found w',
    keys stringmatch iterate fuel r regex w =
    (Some (if bool_decide (found = []) then ([], Some ErrKeyNotFound) else (found, None)), w') /\
    (forall k, k ∈ found <-> is_Some (db w !! k) /\ stringmatch regex k = true) /\
    db w' = db w /\ reliable w'.
Proof.
  intros Hrel (ks & Htour & Hks).
  destruct (keys_tour fuel r regex w Hrel) as (w' & Hkeys & Hdb & Hrel').
  rewrite Htour in Hkeys. simpl in Hkeys.
  exists (List.filter (stringmatch regex) ks), w'.
  split; [|split; [|auto]].
  - rewrite Hkeys. destruct (List.filter (stringmatch regex) ks); reflexivity.
  - intros k. rewrite list_elem_of_In, List.filter_In, <- list_elem_of_In, Hks. reflexivity.
Qed.

Lemma keys_unmatched fuel r regex w :
  unmatched stringmatch regex (db w) -> reliable w -> full iterate fuel (db w) ->
  exists w', keys stringmatch iterate fuel r regex w = (Some ([], Some ErrKeyNotFound), w') /\
             db w' = db w.
Proof.
  intros Hno Hrel Hfull.
  destruct (keys_full fuel r regex w Hrel Hfull) as (found & w' & Hkeys & Hfound & Hdb & _).
  exists w'. split; [|exact Hdb].
  destruct found as [|k found]; [exact Hkeys|].
  destruct (proj1 (Hfound k) (list_elem_of_here _ _)) as [Hk Hmatch].
  rewrite (Hno k Hk) in Hmatch. discriminate.
Qed.

(** C9, as the code has it.  [List] and [DeleteTree] scan with the pattern
    [scanRegex (normalize directory)].  When no key of the store matches
    that pattern, the scan commands reach the server and the iteration is a
    full one, both return [ErrKeyNotFound] (and [List] no pair), whatever
    rounds the scan takes; nothing is deleted.  And [DeleteTree] returns
    [ErrKeyNotFound] only then. *)
Theorem List_DeleteTree_empty_directory (r : Store) (directory : string) (w : World) (fuel : nat) :
  reliable w ->
  full iterate fuel (db w) ->
  (unmatched stringmatch (scanRegex (normalize directory)) (db w) ->
   fst (List stringmatch iterate fuel r directory w) = Some ([], Some ErrKeyNotFound) /\
   fst (DeleteTree stringmatch iterate fuel r directory w) = Some (Some ErrKeyNotFound) /\
   db (snd (DeleteTree stringmatch iterate fuel r directory w)) = db w) /\
  (fst (DeleteTree stringmatch iterate fuel r directory w) = Some (Some ErrKeyNotFound) ->
   unmatched stringmatch (scanRegex (normalize directory)) (db w)).
Proof.
  intros Hrel Hfull.
  destruct (keys_full fuel r (scanRegex (normalize directory)) w Hrel Hfull)
    as (found & w' & Hkeys & Hfound & Hdb & Hrel').
  split.
  - intros Hno.
    assert (Hnil : found = []).
    { destruct found as [|k found]; [reflexivity|].
      destruct (proj1 (Hfound k) (list_elem_of_here _ _)) as [Hk Hmatch].
      rewrite (Hno k Hk) in Hmatch. discriminate. }
    subst found. unfold List, list_, DeleteTree, bind. rewrite Hkeys. simpl. auto.
  - unfold DeleteTree, bind. rewrite Hkeys.
    destruct found as [|k found]; simpl.
    + intros _ k Hk.
      destruct (stringmatch (scanRegex (normalize directory)) k) eqn:Hmatch; [|reflexivity].
      assert (Hin : k ∈ @nil string) by (apply Hfound; auto). inversion Hin.
    + unfold client.Del, bind. rewrite send_spec, (reliable_lost _ Hrel'). discriminate.
Qed.

End Scanning.

(** The iteration of the example server is a full one, given fuel for the
    keys of the store. *)
Lemma paging_tour (fuel cursor : nat) (m : gmap string (string * Duration)) :
  (length (map_to_list m).*1 <= cursor + 10 * S fuel)%nat ->
  tour Example.paging (S fuel) m cursor = Some (drop cursor (map_to_list m).*1).
Proof.
  revert cursor. induction fuel as [|fuel IH]; intros cursor Hlen.
  - simpl. change (Z.to_nat defaultCount) with 10%nat.
    destruct (Nat.ltb_spec (cursor + 10) (length (map_to_list m).*1)); [lia|].
    simpl. rewrite take_ge by (rewrite length_drop; lia). reflexivity.
  - change (tour Example.paging (S (S fuel)) m cursor) with
      (let (page, next) := Example.paging m cursor defaultCount in
       if bool_decide (next = endCursor) then Some page
       else app page <$> tour Example.paging (S fuel) m next).
    unfold Example.paging. change (Z.to_nat defaultCount) with 10%nat.
    destruct (Nat.ltb_spec (cursor + 10) (length (map_to_list m).*1)) as [Hlt|Hge].
    + rewrite bool_decide_eq_false_2 by (unfold endCursor; lia).
      rewrite IH by lia. simpl.
      rewrite <- (take_drop 10 (drop cursor (map_to_list m).*1)) at 2.
      rewrite drop_drop. reflexivity.
    + rewrite bool_decide_eq_true_2 by reflexivity.
      rewrite take_ge by (rewrite length_drop; lia). reflexivity.
Qed.

Lemma paging_full (fuel : nat) (m : gmap string (string * Duration)) :
  (size m <= 10 * S fuel)%nat -> full Example.paging fuel m.
Proof.
  intros Hsize. exists (map_to_list m).*1. split.
  - rewrite paging_tour; [reflexivity|].
    rewrite length_fmap, length_map_to_list. lia.
  - intros k. rewrite list_elem_of_fmap. split.
    + intros ([k' v] & -> & Hkv). apply elem_of_map_to_list in Hkv. simpl. eauto.
    + intros [v Hk]. exists (k, v). split; [reflexivity|]. apply elem_of_map_to_list. exact Hk.
Qed.

Lemma List_DeleteTree_empty_directory_witness :
  let w := mkWorld {["a/1" := ("v", 0)]} 7 [] [] in
  fst (List Example.stringmatch Example.paging 1 Example.store "/b" w) =
    Some ([], Some ErrKeyNotFound) /\
  fst (DeleteTree Example.stringmatch Example.paging 1 Example.store "/b" w) =
    Some (Some ErrKeyNotFound) /\
  fst (List Example.stringmatch Example.paging 1 Example.store "/a" w) =
    Some ([mkKVPair "a/1" "v" 0], None).
Proof.
  intros w.
  destruct (List_DeleteTree_empty_directory Example.stringmatch Example.paging
              Example.store "/b" w 1) as [Hempty _].
  - constructor.
  - apply paging_full. vm_compute. lia.
  - destruct Hempty as (HList & HDel & _).
    + intros k [entry Hk]. simpl in Hk. apply lookup_singleton_Some in Hk as [<- _]. reflexivity.
    + split; [exact HList|]. split; [exact HDel|]. vm_compute. reflexivity.
Defined.

(** C9 as it is stated fails.  The directory ["a?"] has no key under it:
    the one key of the store, ["ab/1"], does not begin with it.  But the
    pattern ["a?*"] of the scan matches that key: [List] returns it, and
    [DeleteTree] deletes it and returns no error.  And a directory that is
    itself a key, with nothing else under it, is listed as empty with no
    error: the scan finds the key of the directory and [mget] leaves it
    out. *)
Lemma List_DeleteTree_not_empty_directory :
  let w := mkWorld {["ab/1" := ("v", 0)]} 7 [] [] in
  let own := mkWorld {["a" := ("v", 0)]} 7 [] [] in
  noKeyUnder "/a?" (db w) /\
  fst (List Example.stringmatch Example.paging 1 Example.store "/a?" w) =
    Some ([mkKVPair "ab/1" "v" 0], None) /\
  fst (DeleteTree Example.stringmatch Example.paging 1 Example.store "/a?" w) = Some None /\
  db (snd (DeleteTree Example.stringmatch Example.paging 1 Example.store "/a?" w)) !! "ab/1" =
    None /\
  fst (List Example.stringmatch Example.paging 1 Example.store "/a" own) = Some ([], None).
Proof.
  intros w own. split.
  - intros k [entry Hk]. simpl in Hk. apply lookup_singleton_Some in Hk as [<- _]. reflexivity.
  - repeat split; vm_compute; reflexivity.
Qed.

(** With the matcher of the example store, and a directory that has none of
    the special characters, the keys that match the scan pattern are the
    keys that begin with the directory. *)
Lemma stringmatch_star (k : string) : Example.stringmatch "*" k = true.
Proof.
  change (Example.stringmatch "*" k) with
    ((fix star (s : string) : bool :=
        Example.stringmatch "" s ||
        match s with EmptyString => false | String _ s' => star s' end) k).
  induction k as [|c k IH]; [reflexivity|]. rewrite IH. reflexivity.
Qed.

Lemma stringmatch_prefix (directory k : string) :
  Example.plain directory = true ->
  Example.stringmatch (scanRegex directory) k = strings.HasPrefix k directory.
Proof.
  unfold strings.HasPrefix, scanRegex.
  revert k. induction directory as [|c directory IH]; intros k Hplain.
  - change ("" +:+ "*") with "*". rewrite stringmatch_star. destruct k; reflexivity.
  - simpl in Hplain. apply andb_prop in Hplain as [Hc Hplain].
    apply andb_prop in Hc as [Hstar Hany].
    apply negb_true_iff in Hstar, Hany.
    change (String c directory +:+ "*") with (String c (directory +:+ "*")).
    simpl. rewrite Hstar, Hany. destruct k as [|d k]; [reflexivity|].
    simpl. rewrite (IH k Hplain).
    destruct (Ascii.ascii_dec c d) as [->|Hne].
    + rewrite Ascii.eqb_refl. reflexivity.
    + apply Ascii.eqb_neq in Hne. rewrite Hne. reflexivity.
Qed.

Lemma unmatched_prefix (directory : string) (m : gmap string (string * Duration)) :
  Example.plain directory = true ->
  unmatched Example.stringmatch (scanRegex directory) m <->
  (forall k, is_Some (m !! k) -> strings.HasPrefix k directory = false).
Proof.
  intros Hplain. unfold unmatched.
  split; intros H k Hk; specialize (H k Hk);
    rewrite stringmatch_prefix in * by exact Hplain; exact H.
Qed.

(** *** C6 and C7 *)

Lemma Watch_unfold r key msgCh w :
  Watch r key msgCh w =
  watchLoop msgCh (watchGet r (normalize key)) watchPush []
    (snd (newSubscribe (regexWatch (normalize key) false) w)).
Proof. reflexivity. Qed.

(** A run of the loop over [msgs ++ more] is the run over [msgs], and, if
    that did not end the loop, the run over [more] from there. *)
Lemma watchRange_app {Ch} (msgs more : list Arrival) (get : getter) (push : pusher Ch) ch w :
  watchRange (msgs ++ more) get push ch w =
  match watchRange msgs get push ch w with
  | ((ch', None), w') => watchRange more get push ch' w'
  | stopped => stopped
  end.
Proof.
  revert ch w. induction msgs as [|m msgs IH]; intros ch w; [reflexivity|].
  simpl. unfold bind, meanwhile.
  destruct (ctxErr m); [reflexivity|].
  destruct (get (interfere (others m) w)) as [[kv err] w1].
  destruct err as [e|]; [|apply IH].
  destruct (bool_decide (Some e <> None) && negb (errors_Is (Some e) ErrKeyNotFound));
    [reflexivity | apply IH].
Qed.

Lemma watchLoop_app {Ch} (msgs more : list Arrival) (get : getter) (push : pusher Ch) ch w :
  watchLoop (msgs ++ more) get push ch w =
  match watchLoop msgs get push ch w with
  | ((ch', None), w') => watchRange more get push ch' w'
  | stopped => stopped
  end.
Proof.
  unfold watchLoop, bind.
  destruct (get w) as [[kv err] w1].
  destruct err as [e|]; [|apply watchRange_app].
  destruct (bool_decide (Some e <> None) && negb (errors_Is (Some e) ErrKeyNotFound));
    [reflexivity | apply watchRange_app].
Qed.

(** What [Watch] has sent only grows. *)
Lemma watchRange_extends (msgs : list Arrival) (get : getter) ch w :
  exists rest, fst (fst (watchRange msgs get watchPush ch w)) = ch ++ rest.
Proof.
  revert ch w. induction msgs as [|m msgs IH]; intros ch w.
  - exists []. simpl. rewrite app_nil_r. reflexivity.
  - simpl. unfold bind, meanwhile.
    destruct (ctxErr m); [exists []; simpl; rewrite app_nil_r; reflexivity|].
    destruct (get (interfere (others m) w)) as [[kv err] w1].
    destruct (bool_decide (err <> None) && negb (errors_Is err ErrKeyNotFound));
      [exists []; simpl; rewrite app_nil_r; reflexivity|].
    match goal with
    | |- context [watchRange msgs get watchPush (watchPush ?v ch) w1] =>
        destruct (IH (watchPush v ch) w1) as [rest Hrest]; rewrite Hrest;
        destruct v as [|val|vals]; simpl
    end.
    + exists rest. reflexivity.
    + exists (val :: rest). rewrite <- app_assoc. reflexivity.
    + exists rest. reflexivity.
Qed.

Lemma watchGet_spec r nKey w :
  watchGet r nKey w =
  (match get r nKey w with
   | ((_, Some e), _) => (inil, Some e)
   | ((Some kv, None), _) => (ipair kv, None)
   | ((None, None), _) => (inil, None)
   end, snd (get r nKey w)).
Proof.
  unfold watchGet, bind. destruct (get r nKey w) as [[[kv|] [e|]] w1]; reflexivity.
Qed.

(** A read gives a pair and no error, or no pair and an error. *)
Lemma get_cases r key w :
  (exists p, fst (get r key w) = (Some p, None)) \/
  (exists e, fst (get r key w) = (None, Some e)).
Proof.
  unfold get, bind. rewrite Get_spec.
  destruct (lost w) as [e|]; simpl.
  - destruct (bool_decide (e = Nil)); simpl; eauto.
  - destruct (db w !! key) as [[blob ttl]|]; simpl; eauto.
    destruct (Decode (codec r) blob zeroKVPair); simpl; eauto.
Qed.

(** C6.  [Watch] reads the key once, before it takes any message of its
    subscription, and what the read gives is the first thing it sends.  If
    the read gives a pair [p], then [p] is all that is sent when no message
    arrives, the loop over the messages starts with [p] already sent, and
    [p] is the first thing sent whatever arrives.  On a key that is absent
    (the read reaching the server) the same holds with the empty pair
    [store.KVPair{}], and the stream does not end with an error.  The one
    other outcome of the read is an error that is not not-found: the stream
    then ends with it, and no message is taken at all. *)
Theorem Watch_first_snapshot (r : Store) (key : string) (msgCh : list Arrival) (w : World) :
  let nKey := normalize key in
  let w0 := snd (newSubscribe (regexWatch nKey false) w) in
  (forall p w1, get r nKey w0 = ((Some p, None), w1) ->
     Watch r key [] w = (([p], None), w1) /\
     Watch r key msgCh w = watchRange msgCh (watchGet r nKey) watchPush [p] w1 /\
     exists rest, fst (fst (Watch r key msgCh w)) = p :: rest) /\
  (db w !! nKey = None -> lost w = None ->
     Watch r key [] w = (([zeroKVPair], None), sent (GET nKey) w0) /\
     Watch r key msgCh w =
       watchRange msgCh (watchGet r nKey) watchPush [zeroKVPair] (sent (GET nKey) w0) /\
     exists rest, fst (fst (Watch r key msgCh w)) = zeroKVPair :: rest) /\
  (forall e w1, get r nKey w0 = ((None, Some e), w1) -> e <> ErrKeyNotFound ->
     Watch r key msgCh w = (([], Some e), w1)).
Proof.
  intros nKey w0.
  assert (Hfirst : forall first w1 v err,
            watchGet r nKey w0 = ((v, err), w1) ->
            bool_decide (err <> None) && negb (errors_Is err ErrKeyNotFound) = false ->
            watchPush (if errors_Is err ErrKeyNotFound then ipair zeroKVPair else v) [] = [first] ->
            Watch r key [] w = (([first], None), w1) /\
            Watch r key msgCh w = watchRange msgCh (watchGet r nKey) watchPush [first] w1 /\
            exists rest, fst (fst (Watch r key msgCh w)) = first :: rest).
  { intros first w1 v err Hget Hgo Hpush.
    assert (Hrun : forall msgs, Watch r key msgs w =
                     watchRange msgs (watchGet r nKey) watchPush [first] w1).
    { intros msgs. rewrite Watch_unfold. fold nKey. fold w0.
      unfold watchLoop, bind. rewrite Hget, Hgo, Hpush. reflexivity. }
    split; [rewrite Hrun; reflexivity|]. split; [apply Hrun|].
    rewrite Hrun.
    destruct (watchRange_extends msgCh (watchGet r nKey) [first] w1) as [rest Hrest].
    exists rest. exact Hrest. }
  split; [|split].
  - intros p w1 Hget. apply (Hfirst p w1 (ipair p) None); [|reflexivity|reflexivity].
    rewrite watchGet_spec, Hget. reflexivity.
  - intros Habsent Hnet.
    apply (Hfirst zeroKVPair (sent (GET nKey) w0) inil (Some ErrKeyNotFound));
      [|reflexivity|reflexivity].
    rewrite watchGet_spec, get_absent; [reflexivity | exact Hnet | exact Habsent].
  - intros e w1 Hget Hne.
    rewrite Watch_unfold. fold nKey. fold w0.
    unfold watchLoop, bind. rewrite watchGet_spec, Hget. simpl.
    rewrite bool_decide_eq_false_2 by exact Hne. reflexivity.
Qed.

Lemma Watch_first_snapshot_witness :
  fst (Watch Example.store "/k" [] (Example.world 7)) = ([zeroKVPair], None) /\
  fst (Watch Example.store "/k" []
         (snd (Put Example.store "/k" "v" None (Example.world 7)))) =
    ([mkKVPair "k" "v" 0], None).
Proof.
  split.
  - destruct (Watch_first_snapshot Example.store "/k" [] (Example.world 7)) as (_ & Habsent & _).
    destruct Habsent as (Hrun & _); [reflexivity | reflexivity |].
    rewrite Hrun. reflexivity.
  - destruct (Watch_first_snapshot Example.store "/k" []
                (snd (Put Example.store "/k" "v" None (Example.world 7)))) as (Hpresent & _).
    destruct (Hpresent (mkKVPair "k" "v" 0)
                (snd (Watch Example.store "/k" []
                        (snd (Put Example.store "/k" "v" None (Example.world 7))))))
      as (Hrun & _); [vm_compute; reflexivity|].
    rewrite Hrun. reflexivity.
Defined.

(** One message, taken while the context is live: the loop reads again and
    goes by the outcome of the read. *)
Lemma watchRange_one {Ch} (m : Arrival) (more : list Arrival) (get : getter) (push : pusher Ch)
    ch w v err w2 :
  ctxErr m = None ->
  get (interfere (others m) w) = ((v, err), w2) ->
  watchRange (m :: more) get push ch w =
  if bool_decide (err <> None) && negb (errors_Is err ErrKeyNotFound) then ((ch, err), w2)
  else
    watchRange more get push
      (push (if errors_Is err ErrKeyNotFound &&
                (bool_decide (Payload (message m) = "expired") ||
                 bool_decide (Payload (message m) = "del"))
             then ipair zeroKVPair else v) ch) w2.
Proof.
  intros Hctx Hget. simpl. unfold bind, meanwhile. rewrite Hctx, Hget.
  destruct (bool_decide (err <> None) && negb (errors_Is err ErrKeyNotFound)); reflexivity.
Qed.

(** C7, as the code has it.  A message that a watch loop takes while its
    context is live makes it read again, in the store as the other clients
    have left it.  If the read says not found and the message is an expiry
    or a deletion, the loop hands the empty pair [store.KVPair{}] to its
    pusher and goes on, without an error; if the read gives a value, it
    hands that value; if the read fails with any other error, nothing is
    handed over, the loop ends with that error and no later message is
    looked at.  The pusher of [Watch] sends the empty pair on the channel:
    the stream of a key then has one more snapshot, the empty one. *)
Theorem watchLoop_on_message :
  (forall (Ch : Type) (get : getter) (push : pusher Ch) (msgs : list Arrival) (m : Arrival)
          (ch sofar : Ch) (w w1 w2 : World) (v : iface) (err : option error),
     watchLoop msgs get push ch w = ((sofar, None), w1) ->
     ctxErr m = None ->
     get (interfere (others m) w1) = ((v, err), w2) ->
     (err = Some ErrKeyNotFound ->
      Payload (message m) = "expired" \/ Payload (message m) = "del" ->
      watchLoop (msgs ++ [m]) get push ch w = ((push (ipair zeroKVPair) sofar, None), w2)) /\
     (err = None ->
      watchLoop (msgs ++ [m]) get push ch w = ((push v sofar, None), w2)) /\
     (forall e, err = Some e -> e <> ErrKeyNotFound ->
      forall more, watchLoop (msgs ++ m :: more) get push ch w = ((sofar, Some e), w2))) /\
  (forall (r : Store) (key : string) (msgs : list Arrival) (m : Arrival)
          (sofar : list KVPair) (w w1 w2 : World) (kv : option KVPair),
     Watch r key msgs w = ((sofar, None), w1) ->
     ctxErr m = None ->
     get r (normalize key) (interfere (others m) w1) = ((kv, Some ErrKeyNotFound), w2) ->
     Payload (message m) = "expired" \/ Payload (message m) = "del" ->
     Watch r key (msgs ++ [m]) w = ((sofar ++ [zeroKVPair], None), w2)).
Proof.
  assert (Hloop : forall (Ch : Type) (get : getter) (push : pusher Ch) msgs m
                         (ch sofar : Ch) w w1 w2 v err,
            watchLoop msgs get push ch w = ((sofar, None), w1) ->
            ctxErr m = None ->
            get (interfere (others m) w1) = ((v, err), w2) ->
            forall more,
              watchLoop (msgs ++ m :: more) get push ch w =
              if bool_decide (err <> None) && negb (errors_Is err ErrKeyNotFound)
              then ((sofar, err), w2)
              else
                watchRange more get push
                  (push (if errors_Is err ErrKeyNotFound &&
                            (bool_decide (Payload (message m) = "expired") ||
                             bool_decide (Payload (message m) = "del"))
                         then ipair zeroKVPair else v) sofar) w2).
  { intros Ch get push msgs m ch sofar w w1 w2 v err Hrun Hctx Hget more.
    rewrite watchLoop_app, Hrun. apply watchRange_one; assumption. }
  split.
  - intros Ch get push msgs m ch sofar w w1 w2 v err Hrun Hctx Hget.
    pose proof (Hloop Ch get push msgs m ch sofar w w1 w2 v err Hrun Hctx Hget) as Hstep.
    split; [|split].
    + intros -> Hpayload. rewrite Hstep. simpl.
      destruct Hpayload as [-> | ->]; reflexivity.
    + intros ->. rewrite Hstep. reflexivity.
    + intros e -> Hne more. rewrite Hstep. simpl.
      rewrite bool_decide_eq_false_2 by exact Hne. reflexivity.
  - intros r key msgs m sofar w w1 w2 kv Hrun Hctx Hget Hpayload.
    rewrite Watch_unfold in *.
    rewrite (Hloop _ _ _ msgs m [] sofar _ w1 w2 inil (Some ErrKeyNotFound) Hrun Hctx).
    + simpl. destruct Hpayload as [-> | ->]; reflexivity.
    + rewrite watchGet_spec, Hget. destruct kv; reflexivity.
Qed.

(** A key is written, watched, and deleted by another client, whose
    deletion the subscription reports. *)
Lemma watchLoop_on_message_witness :
  let w := snd (Put Example.store "/k" "v" None (Example.world 7)) in
  let deleted :=
    {| others := fun w => withDb (delete "k" (db w)) w;
       ctxErr := None;
       message := {| Channel := "__keyspace@0__:k"; Pattern := "__keyspace*:k"; Payload := "del" |} |} in
  fst (Watch Example.store "/k" [deleted] w) = ([mkKVPair "k" "v" 0; zeroKVPair], None).
Proof.
  intros w deleted.
  destruct watchLoop_on_message as [_ HWatch].
  change [deleted] with ([] ++ [deleted]).
  rewrite (HWatch Example.store "/k" [] deleted [mkKVPair "k" "v" 0] w
             (snd (Watch Example.store "/k" [] w))
             (snd (Watch Example.store "/k" [deleted] w)) None).
  - reflexivity.
  - vm_compute. reflexivity.
  - reflexivity.
  - vm_compute. reflexivity.
  - right. reflexivity.
Defined.

(** C7 as it is stated fails for the watch of a directory.  The one key
    under ["d"] is deleted by another client and the subscription reports
    the deletion; the read that follows says not found; the loop hands the
    empty pair to the pusher of [WatchTree], whose channel carries lists,
    and nothing is sent: the stream holds the first snapshot only. *)
Lemma WatchTree_sends_nothing_on_deletion :
  let w := mkWorld {["d/1" := ("v", 0)]} 7 [] [] in
  let deleted :=
    {| others := fun w => withDb (delete "d/1" (db w)) w;
       ctxErr := None;
       message := {| Channel := "__keyspace@0__:d/1"; Pattern := "__keyspace*:d*"; Payload := "del" |} |} in
  fst (WatchTree Example.stringmatch Example.paging 1 Example.store "/d" [] w) =
    ([[mkKVPair "d/1" "v" 0]], None) /\
  fst (list_ Example.stringmatch Example.paging 1 Example.store "d"
         (interfere (others deleted) (snd (WatchTree Example.stringmatch Example.paging 1 Example.store "/d" [] w)))) =
    Some ([], Some ErrKeyNotFound) /\
  fst (WatchTree Example.stringmatch Example.paging 1 Example.store "/d" [deleted] w) =
    ([[mkKVPair "d/1" "v" 0]], None).
Proof. repeat split; vm_compute; reflexivity. Qed.

(** *** The lock: C2, C3, C8 *)

(** [AtomicPut] returns either [true], the new pair and no error, or [false],
    no pair and an error. *)
Lemma AtomicPut_cases r key value previous opts w :
  (exists item, fst (AtomicPut r key value previous opts w) = (true, Some item, None)) \/
  (exists e, fst (AtomicPut r key value previous opts w) = (false, None, Some e)).
Proof.
  open_AtomicPut.
  destruct previous as [prev|].
  - destruct (cas _ _ _ _ _ w) as [[e|] w1]; simpl; eauto.
  - destruct (setNX _ _ _ _ w) as [[e|] w1]; simpl; eauto.
Qed.

Lemma tryLock_spec l w :
  tryLock l w =
  match lockWrite l w with
  | ((true, item, _), w1) => ((holdLock (setLast l item), (true, None)), w1)
  | ((false, _, err), w1) =>
      if isCASError err then ((l, (false, None)), w1) else ((l, (false, err)), w1)
  end.
Proof.
  unfold tryLock, lockWrite, bind.
  destruct (AtomicPut _ _ _ _ _ w) as [[[[|] item] err] w1]; [reflexivity|].
  destruct (isCASError err); reflexivity.
Qed.

Lemma lockWait_keepsWaiting l waited more w w' :
  keepsWaiting l waited w w' ->
  lockWait (waited ++ more) l w = lockWait more l w'.
Proof.
  induction 1 as [w | others rest w w1 w2 e Hwrite Hcas _ IH]; [reflexivity|].
  simpl. unfold bind at 1. unfold meanwhile. unfold bind at 1.
  rewrite tryLock_spec, Hwrite, Hcas. exact IH.
Qed.

(** C2.  Let the first conditional write of [Lock] fail with the error [e].
    If [e] is not one of not found, modified and exists, [Lock] returns [e]
    at once, whatever would come: nothing is subscribed and nothing is
    retried.  If it is one of them, [Lock] subscribes to the lock key and
    waits; on every delivery of the watch it makes the conditional write
    again: while those fail with errors of that class it goes on waiting,
    it returns the [lockHeld] channel when one succeeds, and it returns at
    once any error outside the class; when the context is done while it
    waits, it returns [ErrAbortTryLock]. *)
Theorem Lock_retries_on_CAS_errors (l : redisLock) (w w1 : World) (e : error) :
  lockWrite l w = ((false, None, Some e), w1) ->
  (isCASError (Some e) = false ->
   forall cases, Lock cases l w = ((l, Some (false, Some e)), w1)) /\
  (isCASError (Some e) = true ->
   let w2 := snd (newSubscribe (regexWatch (normalize (key l)) false) w1) in
   log w2 = log w1 ++ [PSUBSCRIBE ("__keyspace*:" +:+ normalize (key l))] /\
   forall waited w3, keepsWaiting l waited w2 w3 ->
     Lock waited l w = ((l, None), w3) /\
     (forall others rest,
        Lock (waited ++ (others, lock_ctx_Done) :: rest) l w =
        ((l, Some (false, Some ErrAbortTryLock)), interfere others w3)) /\
     (forall others rest item w4,
        lockWrite l (interfere others w3) = ((true, item, None), w4) ->
        Lock (waited ++ (others, watch_recv) :: rest) l w =
        ((holdLock (setLast l item), Some (true, None)), w4)) /\
     (forall others rest e' w4,
        lockWrite l (interfere others w3) = ((false, None, Some e'), w4) ->
        isCASError (Some e') = false ->
        Lock (waited ++ (others, watch_recv) :: rest) l w =
        ((l, Some (false, Some e')), w4))).
Proof.
  intros Hwrite. split.
  - intros Hfatal cases. unfold Lock, bind. rewrite tryLock_spec, Hwrite, Hfatal. reflexivity.
  - intros Hcas w2. split; [reflexivity|].
    intros waited w3 Hwait.
    assert (Hrun : forall cases, Lock cases l w = lockWait cases l w2).
    { intros cases. unfold Lock. unfold bind at 1. rewrite tryLock_spec, Hwrite, Hcas.
      reflexivity. }
    repeat split.
    + rewrite Hrun, <- (app_nil_r waited), (lockWait_keepsWaiting _ _ _ _ _ Hwait).
      reflexivity.
    + intros others rest. rewrite Hrun, (lockWait_keepsWaiting _ _ _ _ _ Hwait). reflexivity.
    + intros others rest item w4 Hok.
      rewrite Hrun, (lockWait_keepsWaiting _ _ _ _ _ Hwait).
      simpl. unfold bind at 1. unfold meanwhile. unfold bind at 1.
      rewrite tryLock_spec, Hok. reflexivity.
    + intros others rest e' w4 Hko Hfatal.
      rewrite Hrun, (lockWait_keepsWaiting _ _ _ _ _ Hwait).
      simpl. unfold bind at 1. unfold meanwhile. unfold bind at 1.
      rewrite tryLock_spec, Hko, Hfatal. reflexivity.
Qed.

(** Another client holds the key: the lock waits through one delivery, and
    then is cancelled, or finds the key released. *)
Lemma Lock_retries_on_CAS_errors_witness :
  let l := NewLock Example.store "/lock" None in
  let w := mkWorld {["lock" := ("other", 60 * Second)]} 7 [] [] in
  let same := fun w : World => w in
  let released := fun w : World => withDb (delete "lock" (db w)) w in
  snd (fst (Lock [(same, watch_recv); (same, lock_ctx_Done)] l w)) =
    Some (false, Some ErrAbortTryLock) /\
  snd (fst (Lock [(same, watch_recv); (released, watch_recv)] l w)) = Some (true, None).
Proof.
  intros l w same released.
  destruct (Lock_retries_on_CAS_errors l w (snd (lockWrite l w)) ErrKeyExists) as [_ Hwait].
  - vm_compute. reflexivity.
  - destruct (Hwait eq_refl) as [_ Hrun].
    destruct (Hrun [(same, watch_recv)]
                (snd (lockWrite l (interfere same
                   (snd (newSubscribe (regexWatch (normalize (key l)) false)
                           (snd (lockWrite l w)))))))) as (_ & Hcancel & Hok & _).
    + eapply waits_cons; [vm_compute; reflexivity | reflexivity | apply waits_nil].
    + split.
      * change [(same, watch_recv); (same, lock_ctx_Done)]
          with ([(same, watch_recv)] ++ [(same, lock_ctx_Done)]).
        rewrite (Hcancel same []). reflexivity.
      * change [(same, watch_recv); (released, watch_recv)]
          with ([(same, watch_recv)] ++ [(released, watch_recv)]).
        erewrite (Hok released []); [reflexivity | vm_compute; reflexivity].
Defined.

(** A successful [tryLock] keeps the new pair and starts the goroutine. *)
Lemma tryLock_success l w l' w' :
  tryLock l w = ((l', (true, None)), w') ->
  l' = holdLock (setLast l (Some (mkKVPair (key l) (value l) (now w mod Second)))) /\
  lockWrite l w = ((true, Some (mkKVPair (key l) (value l) (now w mod Second)), None), w').
Proof.
  rewrite tryLock_spec.
  destruct (lockWrite l w) as [[[ok item] err] w1] eqn:Hwrite.
  destruct ok.
  - intros H. injection H as <- <-.
    destruct (AtomicPut_cases (redis l) (key l) (value l) (last l) (Some {| TTL := ttl l |}) w)
      as [[kv Hok] | [e Hko]]; unfold lockWrite in Hwrite; rewrite Hwrite in *; simpl in *;
      [|discriminate].
    injection Hok as -> ->.
    pose proof (AtomicPut_success _ _ _ _ _ _ _ _ Hwrite) as Hitem.
    rewrite Hitem. split; reflexivity.
  - destruct (isCASError err); intros H; discriminate.
Qed.

Lemma holdLock_starts l :
  3 <= ttl l ->
  holder (holdLock l) = Renewing (ttl l ÷ 3) /\
  3 * (ttl l ÷ 3) <= ttl l < 3 * (ttl l ÷ 3) + 3.
Proof.
  intros Httl.
  assert (Hq : 3 * (ttl l ÷ 3) <= ttl l < 3 * (ttl l ÷ 3) + 3).
  { rewrite Z.quot_div_nonneg by lia.
    pose proof (Z.div_mod (ttl l) 3 ltac:(discriminate)).
    pose proof (Z.mod_pos_bound (ttl l) 3 ltac:(reflexivity)). lia. }
  split; [|exact Hq].
  unfold holdLock, NewTicker.
  destruct (Z.ltb_spec 0 (ttl l ÷ 3)); [reflexivity | lia].
Qed.


Lemma expiration_TTL (t : Duration) : expiration (Some {| TTL := t |}) = t.
Proof.
  unfold expiration. simpl. destruct (Z.eqb_spec t 0) as [->|]; reflexivity.
Qed.







(** A [Lock] that returns the [lockHeld] channel has started the
    goroutine, whether it had to wait or not. *)
Lemma lockWait_success cases l w l' w' :
  lockWait cases l w = ((l', Some (true, None)), w') ->
  exists item, l' = holdLock (setLast l (Some item)).
Proof.
  revert w. induction cases as [|[others c] rest IH]; intros w; [discriminate|].
  simpl. unfold bind at 1. unfold meanwhile.
  destruct c; [discriminate|].
  unfold bind at 1.
  destruct (tryLock l (interfere others w)) as [[l1 [ok err]] w1] eqn:Htry.
  destruct err as [e|]; [discriminate|].
  destruct ok.
  - intros H. injection H as <- <-.
    destruct (tryLock_success _ _ _ _ Htry) as [-> _]. eauto.
  - rewrite tryLock_spec in Htry.
    destruct (lockWrite l (interfere others w)) as [[[[|] item] err] w2];
      [discriminate|].
    destruct (isCASError err); inversion Htry; subst; apply IH.
Qed.

Lemma Lock_success cases l w l' w' :
  Lock cases l w = ((l', Some (true, None)), w') ->
  3 <= ttl l ->
  holder l' = Renewing (ttl l ÷ 3) /\ last l' <> None.
Proof.
  intros HLock Httl.
  assert (Hheld : exists item, l' = holdLock (setLast l (Some item))).
  { unfold Lock in HLock. unfold bind at 1 in HLock.
    destruct (tryLock l w) as [[l1 [ok err]] w1] eqn:Htry.
    destruct err as [e|]; [discriminate|].
    destruct ok.
    - injection HLock as <- <-.
      destruct (tryLock_success _ _ _ _ Htry) as [-> _]. eauto.
    - rewrite tryLock_spec in Htry.
      destruct (lockWrite l w) as [[[[|] item] err] w2]; [discriminate|].
      unfold bind in HLock.
      destruct (isCASError err); inversion Htry; subst;
        apply (lockWait_success _ _ _ _ _ HLock). }
  destruct Hheld as [item ->].
  split; [apply (holdLock_starts (setLast l _)); exact Httl|].
  unfold holdLock. destruct (NewTicker _); discriminate.
Qed.

(** With no goroutine to take its send, [Unlock] does not return, and it
    sends no command. *)
Lemma Unlock_blocks l w :
  (forall heartbeat, holder l <> Renewing heartbeat) -> Unlock l w = (None, w).
Proof.
  intros Hnone. unfold Unlock.
  destruct (holder l) as [| heartbeat | |]; try reflexivity.
  destruct (Hnone heartbeat). reflexivity.
Qed.

(** C8, as the code has it.  A [Lock] that succeeds leaves the renewal
    goroutine parked on its ticker.  On a lock whose goroutine is parked,
    [Unlock] wakes the goroutine, which returns, and then makes the
    conditional delete with the last known record as the expectation.  If
    the delete succeeds, [Unlock] returns no error and the last known record
    is nil; if it fails, [Unlock] returns the error and the last known
    record stays. *)
Theorem Unlock_clears_on_success (l : redisLock) (w : World) :
  (forall heartbeat ok err w1,
     holder l = Renewing heartbeat ->
     AtomicDelete (redis l) (key l) (last l) w = ((ok, err), w1) ->
     exists l',
       Unlock l w = (Some (l', err), w1) /\
       holder l' = Returned /\
       (err = None -> last l' = None) /\
       (err <> None -> last l' = last l)) /\
  (forall cases l0 w0,
     Lock cases l0 w0 = ((l, Some (true, None)), w) -> 3 <= ttl l0 ->
     holder l = Renewing (ttl l0 ÷ 3) /\ last l <> None).
Proof.
  split.
  - intros heartbeat ok err w1 Hholder Hdel.
    unfold Unlock. rewrite Hholder. unfold holdSelect. rewrite Hholder.
    unfold bind, ret. simpl. rewrite Hdel.
    destruct err as [e|].
    + exists (setHolder l Returned). repeat split. congruence.
    + exists (setLast (setHolder l Returned) None). repeat split. congruence.
  - intros cases l0 w0. apply Lock_success.
Qed.

Lemma Unlock_clears_on_success_witness :
  let l0 := NewLock Example.store "/lock" None in
  let l := fst (fst (Lock [] l0 (Example.world 7))) in
  let w := snd (Lock [] l0 (Example.world 7)) in
  snd (fst (Lock [] l0 (Example.world 7))) = Some (true, None) /\
  (exists l', fst (Unlock l w) = Some (l', None) /\ last l' = None) /\
  db (snd (Unlock l w)) !! "lock" = None.
Proof.
  intros l0 l w. split; [reflexivity|]. split; [|reflexivity].
  destruct (Unlock_clears_on_success l w) as (Hunlock & _).
  destruct (Hunlock (20 * Second) true None (snd (Unlock l w)))
    as (l' & Hrun & _ & Hnil & _); [reflexivity | vm_compute; reflexivity |].
  exists l'. rewrite Hrun. split; [reflexivity | apply Hnil; reflexivity].
Defined.

(** C8 as it is stated fails.  A lock is taken; another client deletes the
    key; [Unlock] then returns [ErrKeyNotFound] and the last known record
    is still there.  And when it is the renewal that meets the deleted key,
    the goroutine returns, and [Unlock] after that never does. *)
Lemma Unlock_keeps_last_on_error :
  let l0 := NewLock Example.store "/lock" None in
  let l := fst (fst (Lock [] l0 (Example.world 7))) in
  let w := snd (Lock [] l0 (Example.world 7)) in
  let deleted := fun w : World => withDb (delete "lock" (db w)) w in
  snd (fst (Lock [] l0 (Example.world 7))) = Some (true, None) /\
  match fst (Unlock l (interfere deleted w)) with
  | Some (l', err) =>
      err = Some ErrKeyNotFound /\ last l' = Some (mkKVPair "/lock" "" 7) /\ last l' <> None
  | None => False
  end /\
  (let lost_lock := holdRun [(deleted, heartbeat_C)] l w in
   holder (fst lost_lock) = Returned /\
   fst (Unlock (fst lost_lock) (snd lost_lock)) = None).
Proof.
  intros l0 l w deleted. split; [reflexivity|]. split.
  - vm_compute. split; [reflexivity|]. split; [reflexivity | discriminate].
  - split; vm_compute; reflexivity.
Qed.

(** * More of the store *)

(** ** Single keys *)

Lemma Del_one_spec key w :
  client.Del [key] w =
  match lost w with
  | Some e => (mkCmd 0 (Some e), sent (DEL [key]) w)
  | None =>
      (mkCmd (match db w !! key with Some _ => 1 | None => 0 end) None,
       withDb (delete key (db w)) (sent (DEL [key]) w))
  end.
Proof.
  unfold client.Del, bind. rewrite send_spec.
  destruct (lost w); [reflexivity|].
  unfold client.update, ret, withDb. simpl. rewrite sent_db.
  rewrite filter_cons, filter_nil.
  destruct (decide (is_Some (db w !! key))) as [[entry Hk] | Hno].
  - rewrite Hk. reflexivity.
  - destruct (db w !! key) as [entry|] eqn:Hk; [destruct Hno; eauto | reflexivity].
Qed.

(** X1.  [Delete] does not care whether the key is there: when the command
    reaches the server it returns no error for a present and for a missing
    key alike, it leaves every other entry as it was, and after it [Get]
    says [ErrKeyNotFound] and [Exists] says [false]. *)
Theorem Delete_then_absent (r : Store) (key : string) (w : World) :
  reliable w ->
  let w' := snd (Delete r key w) in
  fst (Delete r key w) = None /\
  (forall k, k <> normalize key -> db w' !! k = db w !! k) /\
  fst (Get r key w') = (None, Some ErrKeyNotFound) /\
  fst (Exists r key w') = (false, None).
Proof.
  intros Hrel w'.
  assert (HDel : Delete r key w =
                 (None, withDb (delete (normalize key) (db w)) (sent (DEL [normalize key]) w))).
  { unfold Delete, bind. rewrite Del_one_spec, (reliable_lost _ Hrel). reflexivity. }
  assert (Hnet : lost w' = None).
  { unfold w'. rewrite HDel. simpl. auto with world. }
  assert (Hgone : db w' !! normalize key = None).
  { unfold w'. rewrite HDel. simpl. apply lookup_delete_eq. }
  split; [rewrite HDel; reflexivity|]. split; [|split].
  - intros k Hk. unfold w'. rewrite HDel. simpl.
    apply lookup_delete_ne. congruence.
  - unfold Get. rewrite (get_absent r _ w' Hnet Hgone). reflexivity.
  - unfold Exists, bind. rewrite Exists_spec, Hnet, Hgone. reflexivity.
Qed.

Lemma Delete_then_absent_witness :
  let w := snd (Put Example.store "/k" "v" None (Example.world 7)) in
  fst (Delete Example.store "k" w) = None /\
  fst (Get Example.store "/k" (snd (Delete Example.store "k" w))) = (None, Some ErrKeyNotFound) /\
  fst (Delete Example.store "missing" w) = None.
Proof.
  intros w.
  destruct (Delete_then_absent Example.store "k" w) as (Hdel & _ & Hget & _); [constructor|].
  destruct (Delete_then_absent Example.store "missing" w) as (Hmiss & _); [constructor|].
  split; [exact Hdel|]. split; [|exact Hmiss].
  rewrite <- Hget. reflexivity.
Defined.

(** X2.  [Put] writes one entry and asks no question: when the codec encodes
    the pair and the command reaches the server, the entry under the
    normalized key holds the new blob, whatever was there before, and every
    other entry is as it was.  The expiry of the entry is the TTL of the
    options in whole milliseconds, and one millisecond for less, when the
    TTL is positive; for a TTL of -1 ns, which is [redis.KeepTTL], it is the
    expiry that the key had; for nil options, a zero TTL and any other
    negative TTL there is none. *)
Theorem Put_overwrites_one_entry (r : Store) (key value blob : string)
    (opts : option WriteOptions) (w : World) :
  Encode (codec r) (Some (mkKVPair key value (now w mod Second))) = (blob, None) ->
  lost w = None ->
  let w' := snd (Put r key value opts w) in
  let t := match opts with Some o => TTL o | None => 0 end in
  fst (Put r key value opts w) = None /\
  db w' !! normalize key =
    Some (blob,
          if 0 <? t then Z.max Millisecond (t ÷ Millisecond * Millisecond)
          else if t =? client.KeepTTL
               then match db w !! normalize key with Some (_, kept) => kept | None => 0 end
               else 0) /\
  (forall k, k <> normalize key -> db w' !! k = db w !! k).
Proof.
  intros Henc Hnet w' t. unfold w'.
  rewrite (Put_spec _ _ _ _ _ _ Henc), Hnet. simpl.
  split; [reflexivity|]. split.
  - rewrite lookup_insert_eq, setExpire_expiry. do 2 f_equal.
    assert (Ht : expiration opts = t).
    { unfold expiration, noExpiration, t. destruct opts as [o|]; [|reflexivity].
      destruct (Z.eqb_spec (TTL o) 0) as [->|]; reflexivity. }
    rewrite Ht. reflexivity.
  - intros k Hk. apply lookup_insert_ne. congruence.
Qed.

Lemma Put_overwrites_one_entry_witness :
  let w := mkWorld {["k" := ("old", 5 * Second); "other" := ("x", 0)]} 7 [] [] in
  let w' := snd (Put Example.store "/k" "new" None w) in
  let w2 := snd (Put Example.store "/k" "new" (Some {| TTL := 1500000 |}) w) in
  let w3 := snd (Put Example.store "/k" "new" (Some {| TTL := -5 * Second |}) w) in
  db w' !! "k" = Some ("new", 0) /\ db w' !! "other" = Some ("x", 0) /\
  db w2 !! "k" = Some ("new", Millisecond) /\ db w3 !! "k" = Some ("new", 0).
Proof.
  intros w w' w2 w3.
  destruct (Put_overwrites_one_entry Example.store "/k" "new" "new" None w)
    as (_ & Hnew & Hframe); [reflexivity | reflexivity |].
  destruct (Put_overwrites_one_entry Example.store "/k" "new" "new" (Some {| TTL := 1500000 |}) w)
    as (_ & Hms & _); [reflexivity | reflexivity |].
  destruct (Put_overwrites_one_entry Example.store "/k" "new" "new"
              (Some {| TTL := -5 * Second |}) w)
    as (_ & Hneg & _); [reflexivity | reflexivity |].
  split; [exact Hnew|].
  split; [transitivity (db w !! "other"); [apply Hframe; discriminate | reflexivity]|].
  split; [exact Hms | exact Hneg].
Defined.

(** X3.  When the codec cannot encode the new pair, [Put] and [AtomicPut]
    return the codec's error and send nothing: the world is as it was. *)
Theorem encode_error_sends_nothing (r : Store) (key value blob : string)
    (previous : option KVPair) (opts : option WriteOptions) (w : World) (e : error) :
  Encode (codec r) (Some (mkKVPair key value (now w mod Second))) = (blob, Some e) ->
  Put r key value opts w = (Some e, w) /\
  AtomicPut r key value previous opts w = ((false, None, Some e), w).
Proof.
  intros Henc. split.
  - unfold Put, bind. rewrite sequenceNum_spec. unfold setTTL. rewrite Henc. reflexivity.
  - open_AtomicPut. destruct previous as [prev|].
    + unfold cas. rewrite Henc. reflexivity.
    + unfold setNX. rewrite Henc. reflexivity.
Qed.

Lemma encode_error_sends_nothing_witness :
  Put Sample.strict "/k" "" None (Example.world 7) =
    (Some (errorString "codec: empty value"), Example.world 7) /\
  fst (AtomicPut Sample.strict "/k" "" None None (Example.world 7)) =
    (false, None, Some (errorString "codec: empty value")).
Proof.
  destruct (encode_error_sends_nothing Sample.strict "/k" "" "" None None (Example.world 7)
              (errorString "codec: empty value")) as [HPut HAtomic]; [reflexivity|].
  split; [exact HPut | rewrite HAtomic; reflexivity].
Defined.

(** ** Directories *)

Section Listing.

Variable stringmatch : string -> string -> bool.
Variable iterate : gmap string (string * Duration) -> nat -> Z -> list string * nat.

(** X4.  The scan of [keys] misses nothing and invents nothing: when every
    scan command reaches the server and the iteration is a full one, the
    keys it returns are the keys of the store that match the pattern (the
    code takes them as the server gives them, so that a key may come more
    than once); [ErrKeyNotFound] comes exactly when there is none; the store
    is left as it was. *)
Theorem keys_are_the_matches (fuel : nat) (r : Store) (regex : string) (w : World) :
  reliable w -> full iterate fuel (db w) ->
  exists found : list string,
    fst (keys stringmatch iterate fuel r regex w) =
      Some (if bool_decide (found = []) then ([], Some ErrKeyNotFound) else (found, None)) /\
    (forall k, In k found <-> is_Some (db w !! k) /\ stringmatch regex k = true) /\
    db (snd (keys stringmatch iterate fuel r regex w)) = db w.
Proof.
  intros Hrel Hfull.
  destruct (keys_full stringmatch iterate fuel r regex w Hrel Hfull)
    as (found & w' & Hkeys & Hfound & Hdb & _).
  exists found. rewrite Hkeys. simpl. split; [reflexivity|]. split; [|exact Hdb].
  intros k. rewrite <- list_elem_of_In. apply Hfound.
Qed.

(** What [mget] keeps is never the entry of the directory itself. *)
Lemma mgetRange_excludes r directory keys i replies pairs :
  Forall (fun kv => normalize (Key kv) <> directory) pairs ->
  Forall (fun kv => normalize (Key kv) <> directory)
    (fst (mgetRange r directory keys i replies pairs)).
Proof.
  revert i pairs. induction replies as [|reply rest IH]; intros i pairs Hpairs; [exact Hpairs|].
  simpl. case_bool_decide; [apply IH; exact Hpairs|].
  destruct (Decode (codec r) _ zeroKVPair) as [kv|err]; [|constructor].
  case_bool_decide; [|apply IH; exact Hpairs].
  apply IH, Forall_app. split; [exact Hpairs|]. constructor; [assumption | constructor].
Qed.

(** X5.  [List] never returns the entry of the directory itself: whatever
    the store holds, every pair of a listing that ends without an error has
    a key whose normal form differs from the normalized directory. *)
Theorem List_excludes_the_directory (fuel : nat) (r : Store) (directory : string)
    (w : World) (pairs : list KVPair) :
  fst (List stringmatch iterate fuel r directory w) = Some (pairs, None) ->
  Forall (fun kv => normalize (Key kv) <> normalize directory) pairs.
Proof.
  unfold List, list_, bind.
  destruct (keys stringmatch iterate fuel r (scanRegex (normalize directory)) w)
    as [[[allKeys [err|]]|] w1]; simpl; try discriminate.
  unfold mget, bind.
  destruct (client.MGet allKeys w1) as [reply w2].
  destruct (Err reply) as [err|]; simpl; [discriminate|].
  intros H. injection H as H.
  pose proof (mgetRange_excludes r (normalize directory) allKeys 0 (Val reply) []
                (Forall_nil_2 _)) as Hex.
  rewrite H in Hex. exact Hex.
Qed.

Lemma Del_spec keys w :
  keys <> [] -> lost w = None ->
  client.Del keys w =
  (mkCmd (Z.of_nat (length (filter (fun k => is_Some (db w !! k)) keys))) None,
   withDb (foldr delete (db w) keys) (sent (DEL keys) w)).
Proof.
  intros Hkeys Hnet. unfold client.Del, bind. rewrite send_spec, Hnet.
  destruct keys as [|k keys]; [congruence|].
  unfold client.update, ret, withDb. rewrite sent_db. reflexivity.
Qed.

(** X6.  [DeleteTree] removes the keys that match the pattern of the
    directory and no other: when there is one, every command reaches the
    server and the iteration of the scan is a full one, it returns no error,
    and afterwards a key is in the store exactly if it was there and does
    not match. *)
Theorem DeleteTree_removes_the_matches (fuel : nat) (r : Store) (directory : string)
    (w : World) :
  reliable w -> full iterate fuel (db w) ->
  (exists k, is_Some (db w !! k) /\ stringmatch (scanRegex (normalize directory)) k = true) ->
  fst (DeleteTree stringmatch iterate fuel r directory w) = Some None /\
  forall k,
    db (snd (DeleteTree stringmatch iterate fuel r directory w)) !! k =
    if stringmatch (scanRegex (normalize directory)) k then None else db w !! k.
Proof.
  intros Hrel Hfull (k0 & Hk0 & Hmatch0).
  destruct (keys_full stringmatch iterate fuel r (scanRegex (normalize directory)) w Hrel Hfull)
    as (found & w1 & Hkeys & Hin & Hdb & Hrel1).
  unfold DeleteTree, bind. rewrite Hkeys.
  destruct found as [|k1 found].
  { assert (Hk : k0 ∈ @nil string) by (apply Hin; auto). inversion Hk. }
  rewrite bool_decide_eq_false_2 by discriminate.
  rewrite (Del_spec (k1 :: found) w1) by (congruence || auto with world).
  simpl. split; [reflexivity|]. intros k. rewrite Hdb.
  change (delete k1 (foldr delete (db w) found)) with (foldr delete (db w) (k1 :: found)).
  destruct (stringmatch (scanRegex (normalize directory)) k) eqn:Hmatch.
  - destruct (db w !! k) as [v|] eqn:Hk.
    + apply lookup_foldr_delete, Hin. eauto.
    + destruct (foldr delete (db w) (k1 :: found) !! k) as [y|] eqn:Hy; [|reflexivity].
      apply lookup_foldr_delete_Some in Hy as [_ Hy]. congruence.
  - apply lookup_foldr_delete_not_elem_of. intros Hk. apply Hin in Hk as [_ Hk]. congruence.
Qed.

End Listing.

Lemma keys_are_the_matches_witness :
  let w := mkWorld {["a/1" := ("v", 0); "a/2" := ("w", 0); "b" := ("x", 0)]} 7 [] [] in
  exists found : list string,
    fst (keys Example.stringmatch Example.paging 1 Example.store "a*" w) = Some (found, None) /\
    (In "a/1" found /\ In "a/2" found /\ ~ In "b" found).
Proof.
  intros w.
  destruct (keys_are_the_matches Example.stringmatch Example.paging 1 Example.store "a*" w)
    as (found & Hkeys & Hin & _); [constructor | apply paging_full; vm_compute; lia |].
  exists found.
  assert (H1 : In "a/1" found) by (apply Hin; split; [eexists|]; reflexivity).
  assert (H2 : In "a/2" found) by (apply Hin; split; [eexists|]; reflexivity).
  split; [|split; [exact H1 | split; [exact H2|]]].
  - rewrite Hkeys. rewrite bool_decide_eq_false_2; [reflexivity|].
    intros ->. destruct H1.
  - intros Hb. apply Hin in Hb as [_ Hb]. discriminate.
Defined.

Lemma List_excludes_the_directory_witness :
  let w := mkWorld {["a" := ("dir", 0); "a/1" := ("v", 0)]} 7 [] [] in
  fst (List Example.stringmatch Example.paging 1 Example.store "/a" w) = Some ([mkKVPair "a/1" "v" 0], None) /\
  Forall (fun kv => normalize (Key kv) <> "a") [mkKVPair "a/1" "v" 0].
Proof.
  intros w.
  assert (HList : fst (List Example.stringmatch Example.paging 1 Example.store "/a" w) =
                  Some ([mkKVPair "a/1" "v" 0], None)) by (vm_compute; reflexivity).
  split; [exact HList|].
  exact (List_excludes_the_directory Example.stringmatch Example.paging 1 Example.store "/a" w
           _ HList).
Defined.

Lemma DeleteTree_removes_the_matches_witness :
  let w := mkWorld {["a/1" := ("v", 0); "a/2" := ("w", 0); "b" := ("x", 0)]} 7 [] [] in
  let w' := snd (DeleteTree Example.stringmatch Example.paging 1 Example.store "/a" w) in
  fst (DeleteTree Example.stringmatch Example.paging 1 Example.store "/a" w) = Some None /\
  db w' !! "a/1" = None /\ db w' !! "a/2" = None /\ db w' !! "b" = Some ("x", 0).
Proof.
  intros w w'.
  destruct (DeleteTree_removes_the_matches Example.stringmatch Example.paging 1 Example.store
              "/a" w)
    as [Hok Hdb];
    [constructor | apply paging_full; vm_compute; lia
     | exists "a/1"; split; [eexists|]; reflexivity |].
  split; [exact Hok|].
  unfold w'. rewrite !Hdb. repeat split.
Defined.

(** ** Watches *)

Lemma get_world r key w : snd (get r key w) = sent (GET key) w.
Proof.
  unfold get, bind. rewrite Get_spec. simpl.
  destruct (lost w) as [e|]; simpl.
  - destruct (bool_decide (e = Nil)); reflexivity.
  - destruct (db w !! key) as [[blob ttl]|]; simpl; [|reflexivity].
    destruct (Decode (codec r) blob zeroKVPair); reflexivity.
Qed.

Lemma watchGet_world r key w : snd (watchGet r key w) = sent (GET key) w.
Proof. rewrite watchGet_spec. simpl. apply get_world. Qed.

Lemma watchPush_length v (ch : list KVPair) : (length (watchPush v ch) <= S (length ch))%nat.
Proof. destruct v; simpl; rewrite ?length_app; simpl; lia. Qed.

Lemma watchRange_length (msgs : list Arrival) (get : getter) (ch : list KVPair) w :
  (length (fst (fst (watchRange msgs get watchPush ch w))) <= length ch + length msgs)%nat.
Proof.
  revert ch w. induction msgs as [|m msgs IH]; intros ch w; simpl; [lia|].
  unfold bind, meanwhile. destruct (ctxErr m); simpl; [lia|].
  destruct (get (interfere (others m) w)) as [[kv err] w1].
  destruct (bool_decide (err <> None) && negb (errors_Is err ErrKeyNotFound)); simpl; [lia|].
  match goal with
  | |- context [watchRange msgs get watchPush (watchPush ?v ch) w1] =>
      specialize (IH (watchPush v ch) w1); pose proof (watchPush_length v ch)
  end.
  lia.
Qed.

(** X7.  The stream of [Watch] carries at most one snapshot for the state
    at the start and one for each message of the subscription: messages are
    never turned into more snapshots than there are of them. *)
Theorem Watch_one_snapshot_per_message (r : Store) (key : string) (msgCh : list Arrival)
    (w : World) :
  (length (fst (fst (Watch r key msgCh w))) <= 1 + length msgCh)%nat.
Proof.
  rewrite Watch_unfold. unfold watchLoop, bind.
  destruct (watchGet r (normalize key) _) as [[kv err] w1].
  destruct (bool_decide (err <> None) && negb (errors_Is err ErrKeyNotFound)); simpl; [lia|].
  match goal with
  | |- context [watchRange msgCh ?g watchPush (watchPush ?v []) w1] =>
      pose proof (watchRange_length msgCh g (watchPush v []) w1);
      pose proof (watchPush_length v [])
  end.
  simpl in *. lia.
Qed.

Lemma watchRange_reads (msgs : list Arrival) r key (ch : list KVPair) w :
  exists n,
    (n <= length msgs)%nat /\
    log (snd (watchRange msgs (watchGet r key) watchPush ch w)) =
    log w ++ replicate n (GET key).
Proof.
  revert ch w. induction msgs as [|m msgs IH]; intros ch w; simpl.
  - exists 0%nat. simpl. rewrite app_nil_r. split; [lia | reflexivity].
  - unfold bind, meanwhile.
    destruct (ctxErr m); simpl.
    { exists 0%nat. simpl. rewrite app_nil_r. split; [lia | reflexivity]. }
    pose proof (watchGet_world r key (interfere (others m) w)) as Hw.
    destruct (watchGet r key (interfere (others m) w)) as [[kv err] w1]. simpl in Hw. subst w1.
    destruct (bool_decide (err <> None) && negb (errors_Is err ErrKeyNotFound)); simpl.
    { exists 1%nat. rewrite sent_log. split; [lia | reflexivity]. }
    match goal with
    | |- context [watchRange msgs _ watchPush ?c ?w1] =>
        destruct (IH c w1) as (n & Hn & Hlog)
    end.
    exists (S n). rewrite Hlog, sent_log. simpl. rewrite <- app_assoc.
    split; [lia | reflexivity].
Qed.

(** X8.  A watch only reads: all that [Watch] and its goroutine send is the
    subscription to the pattern of the normalized key and then reads of
    that key, at most one for the start and one per message. *)
Theorem Watch_only_reads (r : Store) (key : string) (msgCh : list Arrival) (w : World) :
  exists n,
    (n <= 1 + length msgCh)%nat /\
    log (snd (Watch r key msgCh w)) =
    log w ++ PSUBSCRIBE ("__keyspace*:" +:+ normalize key) :: replicate n (GET (normalize key)).
Proof.
  rewrite Watch_unfold. unfold watchLoop, bind.
  pose proof (watchGet_world r (normalize key)
                (snd (newSubscribe (regexWatch (normalize key) false) w))) as Hw.
  destruct (watchGet r (normalize key) _) as [[kv err] w1]. simpl in Hw. subst w1.
  destruct (bool_decide (err <> None) && negb (errors_Is err ErrKeyNotFound)); simpl.
  - exists 1%nat. rewrite sent_log. simpl. rewrite <- app_assoc. split; [lia | reflexivity].
  - match goal with
    | |- context [watchRange msgCh _ watchPush ?c ?w1] =>
        destruct (watchRange_reads msgCh r (normalize key) c w1) as (n & Hn & Hlog)
    end.
    exists (S n). rewrite Hlog, sent_log. simpl. rewrite <- !app_assoc.
    split; [lia | reflexivity].
Qed.

(** X9.  Once the context is done the watch reads no more: if a message is
    taken when [ctx.Done()] is closed, the stream ends there with the error
    of the context, nothing more is sent on it, no read is made and the
    later messages are not looked at. *)
Theorem Watch_stops_when_context_done (r : Store) (key : string) (msgs more : list Arrival)
    (m : Arrival) (w w1 : World) (sofar : list KVPair) (e : error) :
  Watch r key msgs w = ((sofar, None), w1) ->
  ctxErr m = Some e ->
  Watch r key (msgs ++ m :: more) w = ((sofar, Some e), interfere (others m) w1) /\
  log (interfere (others m) w1) = log w1.
Proof.
  intros Hrun Hctx. split; [|reflexivity].
  rewrite Watch_unfold in *. rewrite watchLoop_app, Hrun.
  simpl. unfold bind, meanwhile. rewrite Hctx. reflexivity.
Qed.

Lemma Watch_stops_when_context_done_witness :
  let w := snd (Put Example.store "/k" "v" None (Example.world 7)) in
  let late :=
    {| others := fun w => w;
       ctxErr := Some Canceled;
       message := {| Channel := "__keyspace@0__:k"; Pattern := "__keyspace*:k"; Payload := "set" |} |} in
  fst (Watch Example.store "/k" [late; late] w) = ([mkKVPair "k" "v" 0], Some Canceled).
Proof.
  intros w late.
  destruct (Watch_stops_when_context_done Example.store "/k" [] [late] late w
              (snd (Watch Example.store "/k" [] w)) [mkKVPair "k" "v" 0] Canceled)
    as [Hstop _]; [vm_compute; reflexivity | reflexivity |].
  simpl app in Hstop. rewrite Hstop. reflexivity.
Defined.

Section TreeWatch.

Variable stringmatch : string -> string -> bool.
Variable iterate : gmap string (string * Duration) -> nat -> Z -> list string * nat.

(** X10.  The watch of a directory whose pattern matches no key says nothing
    at the start: the listing fails with [ErrKeyNotFound], the loop makes an empty
    pair of it, and the pusher of [WatchTree], which only passes lists on,
    drops it.  With no message the stream is empty, and it ends without an
    error. *)
Theorem WatchTree_empty_directory_is_silent (fuel : nat) (r : Store) (directory : string)
    (w : World) :
  unmatched stringmatch (scanRegex (normalize directory)) (db w) ->
  reliable w ->
  full iterate fuel (db w) ->
  fst (WatchTree stringmatch iterate fuel r directory [] w) = ([], None).
Proof.
  intros Hno Hrel Hfuel.
  unfold WatchTree, watchLoop, treeGet, list_, bind.
  destruct (keys_unmatched stringmatch iterate fuel r (scanRegex (normalize directory))
              (snd (newSubscribe (regexWatch (normalize directory) true) w)))
    as (w' & Hkeys & _); [exact Hno | exact Hrel | exact Hfuel |].
  destruct (newSubscribe (regexWatch (normalize directory) true) w) as [[] w0].
  simpl in Hkeys. rewrite Hkeys. reflexivity.
Qed.

End TreeWatch.

Lemma WatchTree_empty_directory_is_silent_witness :
  let w := mkWorld {["a/1" := ("v", 0)]} 7 [] [] in
  fst (WatchTree Example.stringmatch Example.paging 1 Example.store "/b" [] w) = ([], None) /\
  fst (WatchTree Example.stringmatch Example.paging 1 Example.store "/a" [] w) = ([[mkKVPair "a/1" "v" 0]], None).
Proof.
  intros w. split; [|vm_compute; reflexivity].
  apply WatchTree_empty_directory_is_silent.
  - intros k [entry Hk]. simpl in Hk. apply lookup_singleton_Some in Hk as [<- _]. reflexivity.
  - constructor.
  - apply paging_full. vm_compute. lia.
Defined.

(** ** Locks *)

Lemma tryLock_result l w :
  let '((_, (ok, err)), _) := tryLock l w in
  (ok = true /\ err = None) \/ (ok = false /\ isCASError err = false).
Proof.
  rewrite tryLock_spec.
  destruct (lockWrite l w) as [[[[|] item] err] w1]; [left; auto|].
  destruct (isCASError err) eqn:Hcas; right; auto.
Qed.

Lemma lockWait_result cases l w l' w' held err :
  lockWait cases l w = ((l', Some (held, err)), w') ->
  (held = true /\ err = None) \/
  (held = false /\ exists e, err = Some e /\ isCASError (Some e) = false).
Proof.
  revert l w. induction cases as [|[others c] rest IH]; intros l w; [discriminate|].
  simpl. unfold bind at 1. unfold meanwhile.
  destruct c.
  - intros H. injection H as _ <- <- _. right. split; [reflexivity|]. eauto.
  - unfold bind at 1.
    pose proof (tryLock_result l (interfere others w)) as Htry.
    destruct (tryLock l (interfere others w)) as [[l1 [ok e1]] w1].
    destruct e1 as [e|].
    + intros H. injection H as _ <- <- _.
      destruct Htry as [[_ ?] | [_ Hcas]]; [discriminate|]. right. eauto.
    + destruct ok.
      * intros H. injection H as _ <- <- _. left. auto.
      * apply IH.
Qed.

(** X11.  What [Lock] returns: either the [lockHeld] channel and no error,
    or no channel and an error; and that error is never one of
    [ErrKeyNotFound], [ErrKeyModified] and [ErrKeyExists], which only make
    it wait. *)
Theorem Lock_never_returns_a_CAS_error (cases : list ((World -> World) * LockCase))
    (l l' : redisLock) (w w' : World) (held : bool) (err : option error) :
  Lock cases l w = ((l', Some (held, err)), w') ->
  (held = true /\ err = None) \/
  (held = false /\ exists e, err = Some e /\
     e <> ErrKeyNotFound /\ e <> ErrKeyModified /\ e <> ErrKeyExists).
Proof.
  intros HLock.
  assert (H : (held = true /\ err = None) \/
              (held = false /\ exists e, err = Some e /\ isCASError (Some e) = false)).
  { unfold Lock in HLock. unfold bind at 1 in HLock.
    pose proof (tryLock_result l w) as Htry.
    destruct (tryLock l w) as [[l1 [ok e1]] w1].
    destruct e1 as [e|].
    - injection HLock as _ <- <- _.
      destruct Htry as [[_ ?] | [_ Hcas]]; [discriminate|]. right. eauto.
    - destruct ok.
      + injection HLock as _ <- <- _. left. auto.
      + unfold bind in HLock. simpl in HLock. apply (lockWait_result _ _ _ _ _ _ _ HLock). }
  destruct H as [H | (-> & e & -> & Hcas)]; [left; exact H|].
  right. split; [reflexivity|]. exists e. split; [reflexivity|].
  unfold isCASError in Hcas. simpl in Hcas.
  repeat split; intros ->; discriminate.
Qed.

Lemma Lock_never_returns_a_CAS_error_witness :
  let l := NewLock Example.store "/lock" None in
  let w := mkWorld {["lock" := ("other", 60 * Second)]} 7 [] [] in
  snd (fst (Lock [(fun w => w, lock_ctx_Done)] l w)) = Some (false, Some ErrAbortTryLock) /\
  ErrAbortTryLock <> ErrKeyExists.
Proof.
  intros l w.
  assert (HLock : Lock [(fun w => w, lock_ctx_Done)] l w =
                  ((fst (fst (Lock [(fun w => w, lock_ctx_Done)] l w)),
                    Some (false, Some ErrAbortTryLock)),
                   snd (Lock [(fun w => w, lock_ctx_Done)] l w))) by (vm_compute; reflexivity).
  destruct (Lock_never_returns_a_CAS_error _ _ _ _ _ _ _ HLock)
    as [[? _] | (_ & e & He & _ & _ & Hexists)]; [discriminate|].
  injection He as <-. split; [rewrite HLock; reflexivity | exact Hexists].
Defined.

(** A lock that holds no record, on a codec that encodes every pair: an
    attempt ends with the lock taken or with the lock as it was, and never
    with an error. *)
Lemma tryLock_fresh l w :
  last l = None -> encodesAll (codec (redis l)) ->
  (exists item w', tryLock l w = ((holdLock (setLast l (Some item)), (true, None)), w')) \/
  (exists w', tryLock l w = ((l, (false, None)), w') /\ db w' = db w).
Proof.
  intros Hlast Henc. rewrite tryLock_spec. unfold lockWrite. rewrite Hlast.
  open_AtomicPut. unfold setNX.
  specialize (Henc (mkKVPair (key l) (value l) (now w mod Second))).
  destruct (Encode (codec (redis l)) _) as [blob e]. simpl in Henc. subst e.
  unfold bind. rewrite SetNX_spec.
  destruct (lost w) as [e|]; simpl.
  - right. eexists. split; [reflexivity | apply sent_db].
  - destruct (client.valid (client.setNXExpire _)); simpl;
      [|right; eexists; split; [reflexivity | apply sent_db]].
    destruct (db w !! normalize (key l)); simpl.
    + right. eexists. split; [reflexivity | apply sent_db].
    + left. eauto.
Qed.

Lemma lockWait_fresh cases l w :
  last l = None -> encodesAll (codec (redis l)) ->
  forall e, snd (fst (lockWait cases l w)) = Some (false, Some e) -> e = ErrAbortTryLock.
Proof.
  intros Hlast Henc e. revert w.
  induction cases as [|[others c] rest IH]; intros w; [discriminate|].
  simpl. unfold bind at 1. unfold meanwhile. destruct c; simpl.
  - intros H. congruence.
  - unfold bind at 1.
    destruct (tryLock_fresh l (interfere others w) Hlast Henc)
      as [(item & w1 & ->) | (w1 & -> & _)]; simpl; [discriminate | apply IH].
Qed.

(** X12.  A lock that holds no record yet hides an outage of the store.  Its
    write goes through [setNX], which turns every failure of the command
    into [ErrKeyExists], and [tryLock] takes that for a lock held by another:
    on a codec that encodes every pair, the only error that [Lock] ever
    returns is [ErrAbortTryLock], whatever happens to its commands. *)
Theorem Lock_fresh_only_aborts (cases : list ((World -> World) * LockCase)) (l : redisLock)
    (w : World) (e : error) :
  last l = None -> encodesAll (codec (redis l)) ->
  snd (fst (Lock cases l w)) = Some (false, Some e) -> e = ErrAbortTryLock.
Proof.
  intros Hlast Henc. unfold Lock. unfold bind at 1.
  destruct (tryLock_fresh l w Hlast Henc) as [(item & w1 & ->) | (w1 & -> & _)]; simpl;
    [discriminate|].
  unfold bind. simpl. apply lockWait_fresh; assumption.
Qed.

Lemma Lock_fresh_only_aborts_witness :
  let l := NewLock Example.store "/lock" None in
  let w := Sample.down 7 (errorString "dial tcp 127.0.0.1:6379: connect: connection refused") 3 in
  let same := fun w : World => w in
  snd (fst (Lock [(same, watch_recv); (same, watch_recv)] l w)) = None /\
  snd (fst (Lock [(same, watch_recv); (same, lock_ctx_Done)] l w)) =
    Some (false, Some ErrAbortTryLock).
Proof.
  intros l w same. split; [vm_compute; reflexivity|].
  assert (HLock : exists e, snd (fst (Lock [(same, watch_recv); (same, lock_ctx_Done)] l w)) =
                            Some (false, Some e)) by (eexists; vm_compute; reflexivity).
  destruct HLock as [e He]. rewrite He.
  rewrite (Lock_fresh_only_aborts [(same, watch_recv); (same, lock_ctx_Done)] l w e);
    [reflexivity | reflexivity | | exact He].
  intros kv. reflexivity.
Defined.

(** [AtomicPut] with a nil [previous] on a key that is not there, with a
    TTL that the server accepts. *)
Lemma AtomicPut_nil_creates_free r key value opts w blob :
  Encode (codec r) (Some (mkKVPair key value (now w mod Second))) = (blob, None) ->
  lost w = None ->
  db w !! normalize key = None ->
  0 <= expiration opts ->
  AtomicPut r key value None opts w =
  ((true, Some (mkKVPair key value (now w mod Second)), None),
   withDb (<[normalize key :=
              (blob, if 0 <? expiration opts
                     then Z.max Millisecond (expiration opts ÷ Millisecond * Millisecond)
                     else 0)]> (db w))
     (sent (SETNX (normalize key) blob (expiration opts)) w)).
Proof.
  intros Henc Hnet Hk Httl. open_AtomicPut.
  unfold setNX, bind.
  rewrite Henc, SetNX_spec, Hnet, Hk, (setNXExpire_valid _ (or_introl Httl)), setNXExpire_expiry.
  simpl. do 3 f_equal.
  destruct (Z.ltb_spec 0 (expiration opts)); [reflexivity|].
  destruct (Z.eqb_spec (expiration opts) client.KeepTTL); [reflexivity|].
  destruct (Z.eqb_spec (expiration opts) 0); [reflexivity | lia].
Qed.

(** An attempt on a key that is there, by a lock that holds no record: the
    lock and the keyspace stay as they are. *)
Lemma tryLock_present l w :
  last l = None -> encodesAll (codec (redis l)) ->
  is_Some (db w !! normalize (key l)) ->
  exists w', tryLock l w = ((l, (false, None)), w') /\ db w' = db w.
Proof.
  intros Hlast Henc [entry Hk]. rewrite tryLock_spec. unfold lockWrite. rewrite Hlast.
  open_AtomicPut. unfold setNX.
  specialize (Henc (mkKVPair (key l) (value l) (now w mod Second))).
  destruct (Encode (codec (redis l)) _) as [blob e]. simpl in Henc. subst e.
  unfold bind. rewrite SetNX_spec, Hk.
  destruct (lost w) as [e|]; [|destruct (client.valid (client.setNXExpire _))];
    simpl; eexists; (split; [reflexivity | apply sent_db]).
Qed.

Lemma lockWait_present cases l w :
  last l = None -> encodesAll (codec (redis l)) ->
  Forall (fun c => keeps (normalize (key l)) (fst c)) cases ->
  is_Some (db w !! normalize (key l)) ->
  exists result w',
    lockWait cases l w = ((l, result), w') /\
    (result = None \/ result = Some (false, Some ErrAbortTryLock)) /\
    is_Some (db w' !! normalize (key l)).
Proof.
  intros Hlast Henc Hkeeps. revert w.
  induction Hkeeps as [|[others c] rest Hkeep _ IH]; intros w Hk.
  - exists None, w. auto.
  - simpl in Hkeep. simpl. unfold bind at 1. unfold meanwhile.
    assert (Hk' : is_Some (db (interfere others w) !! normalize (key l))) by (apply Hkeep, Hk).
    destruct c.
    + eexists _, _. split; [reflexivity|]. auto.
    + unfold bind at 1.
      destruct (tryLock_present l (interfere others w) Hlast Henc Hk') as (w1 & -> & Hdb).
      simpl. apply IH. rewrite Hdb. exact Hk'.
Qed.

(** X13.  Two holders are kept apart.  While the key of the lock is in the
    store and the other clients leave it there, a lock that holds no record
    does not get it: [Lock] is still waiting at the end of the run, or it
    was cancelled; the lock object is as it was, and the key is still in the
    store.  This holds whether the commands reach the server or not. *)
Theorem Lock_excluded_while_key_present (cases : list ((World -> World) * LockCase))
    (l : redisLock) (w : World) :
  last l = None -> encodesAll (codec (redis l)) ->
  Forall (fun c => keeps (normalize (key l)) (fst c)) cases ->
  is_Some (db w !! normalize (key l)) ->
  exists result w',
    Lock cases l w = ((l, result), w') /\
    (result = None \/ result = Some (false, Some ErrAbortTryLock)) /\
    is_Some (db w' !! normalize (key l)).
Proof.
  intros Hlast Henc Hkeeps Hk. unfold Lock. unfold bind at 1.
  destruct (tryLock_present l w Hlast Henc Hk) as (w1 & -> & Hdb).
  simpl. unfold bind. simpl.
  apply lockWait_present; try assumption. simpl. rewrite Hdb. exact Hk.
Qed.

(** Two locks on one key: the first takes it, and the second, through two
    deliveries of its watch, does not. *)
Lemma Lock_excluded_while_key_present_witness :
  let a := NewLock Example.store "/lock" None in
  let b := NewLock Example.store "lock" None in
  let w := snd (Lock [] a (Example.world 7)) in
  let same := fun w : World => w in
  snd (fst (Lock [] a (Example.world 7))) = Some (true, None) /\
  snd (fst (Lock [(same, watch_recv); (same, watch_recv)] b w)) = None.
Proof.
  intros a b w same. split; [reflexivity|].
  destruct (Lock_excluded_while_key_present [(same, watch_recv); (same, watch_recv)] b w)
    as (result & w' & HLock & Hresult & _).
  - reflexivity.
  - intros kv. reflexivity.
  - repeat constructor; intros w0 H; exact H.
  - eexists. vm_compute. reflexivity.
  - rewrite HLock. simpl.
    destruct Hresult as [-> | ->]; [reflexivity|].
    assert (Hrun : snd (fst (Lock [(same, watch_recv); (same, watch_recv)] b w)) = None)
      by (vm_compute; reflexivity).
    rewrite HLock in Hrun. discriminate.
Defined.

(** X14.  A free key is taken at once.  When the key of a lock that holds
    no record is not in the store, the lease is not negative, the codec
    encodes the pair and the command reaches the server, [Lock] returns the
    [lockHeld] channel without waiting, whatever would come; the value of
    the lock is stored under the normalized key, with the lease in whole
    milliseconds (one millisecond for less) as its expiry, and the lock
    holds the pair it wrote. *)
Theorem Lock_takes_a_free_key (cases : list ((World -> World) * LockCase)) (l : redisLock)
    (w : World) (blob : string) :
  let kv := mkKVPair (key l) (value l) (now w mod Second) in
  last l = None ->
  Encode (codec (redis l)) (Some kv) = (blob, None) ->
  lost w = None ->
  db w !! normalize (key l) = None ->
  0 <= ttl l ->
  exists l' w',
    Lock cases l w = ((l', Some (true, None)), w') /\
    last l' = Some kv /\
    db w' = <[normalize (key l) :=
               (blob, if 0 <? ttl l then Z.max Millisecond (ttl l ÷ Millisecond * Millisecond)
                      else 0)]> (db w) /\
    log w' = log w ++ [SETNX (normalize (key l)) blob (ttl l)].
Proof.
  intros kv Hlast Henc Hnet Hk Httl.
  pose proof (AtomicPut_nil_creates_free (redis l) (key l) (value l) (Some {| TTL := ttl l |})
                w blob Henc Hnet Hk) as HPut.
  rewrite expiration_TTL in HPut. specialize (HPut Httl).
  unfold Lock. unfold bind at 1. rewrite tryLock_spec. unfold lockWrite. rewrite Hlast, HPut.
  simpl. eexists _, _. split; [reflexivity|].
  split; [|split].
  - unfold holdLock. destruct (NewTicker _); reflexivity.
  - reflexivity.
  - simpl. apply sent_log.
Qed.

Lemma Lock_takes_a_free_key_witness :
  let l := NewLock Example.store "/lock" (Some {| lockValue := "me"; lockTTL := 9 * Second |}) in
  snd (fst (Lock [] l (Example.world 7))) = Some (true, None) /\
  db (snd (Lock [] l (Example.world 7))) !! "lock" = Some ("me", 9 * Second).
Proof.
  intros l.
  destruct (Lock_takes_a_free_key [] l (Example.world 7) "me")
    as (l' & w' & HLock & _ & Hdb & _); try reflexivity; [vm_compute; discriminate|].
  rewrite HLock. simpl. split; [reflexivity|]. rewrite Hdb. reflexivity.
Defined.

(** X15.  [Unlock] works once.  An [Unlock] that returns, with or without
    an error, leaves no goroutine to take a second send: every later
    [Unlock] of the lock blocks, and sends nothing.  So does the [Unlock] of
    a lock that was never taken. *)
Theorem Unlock_only_once (l : redisLock) (w : World) :
  (forall l' err w', Unlock l w = (Some (l', err), w') ->
     holder l' = Returned /\ forall w2, Unlock l' w2 = (None, w2)) /\
  (forall r key opts, Unlock (NewLock r key opts) w = (None, w)).
Proof.
  split; [|reflexivity].
  intros l' err w'. unfold Unlock.
  destruct (holder l) as [| heartbeat | |] eqn:Hholder; try discriminate.
  unfold holdSelect. rewrite Hholder. unfold bind, ret. simpl.
  destruct (AtomicDelete _ _ _ w) as [[ok [e|]] w1]; intros H; injection H as <- _ _;
    split; reflexivity.
Qed.

Lemma Unlock_only_once_witness :
  let l0 := NewLock Example.store "/lock" None in
  let l := fst (fst (Lock [] l0 (Example.world 7))) in
  let w := snd (Lock [] l0 (Example.world 7)) in
  match fst (Unlock l w) with
  | Some (l', err) => err = None /\ fst (Unlock l' (snd (Unlock l w))) = None
  | None => False
  end.
Proof.
  intros l0 l w.
  destruct (Unlock_only_once l w) as [Honce _].
  assert (Herr : snd <$> fst (Unlock l w) = Some None) by (vm_compute; reflexivity).
  destruct (Unlock l w) as [[[l' err]|] w'] eqn:HUnlock; [|discriminate].
  destruct (Honce l' err w' eq_refl) as [_ Hblocks]. simpl in *.
  split; [congruence | rewrite Hblocks; reflexivity].
Defined.

Lemma hold_keeps l w :
  let l' := fst (fst (hold l w)) in
  redis l' = redis l /\ key l' = key l /\ value l' = value l /\ ttl l' = ttl l /\
  holder l' = holder l /\ (last l <> None -> last l' <> None).
Proof.
  unfold hold, bind.
  destruct (AtomicPut_cases (redis l) (key l) (value l) (last l) (Some {| TTL := ttl l |}) w)
    as [[kv Hok] | [e Hko]];
    destruct (AtomicPut _ _ _ _ _ w) as [[[ok item] err] w1]; simpl in *.
  - injection Hok as -> -> ->. simpl. repeat split; auto; discriminate.
  - injection Hko as -> -> ->. simpl. repeat split; auto.
Qed.

Lemma holdSelect_keeps c l w :
  let l' := fst (holdSelect c l w) in
  redis l' = redis l /\ key l' = key l /\ value l' = value l /\ ttl l' = ttl l /\
  (holder l' = holder l \/ ((exists heartbeat, holder l = Renewing heartbeat) /\ holder l' = Returned)) /\
  (last l <> None -> last l' <> None).
Proof.
  unfold holdSelect.
  destruct (holder l) as [| heartbeat | |] eqn:Hholder; simpl; try (repeat split; auto; fail).
  destruct c; simpl; try (repeat split; eauto; fail).
  unfold bind. pose proof (hold_keeps l w) as Hhold.
  destruct (hold l w) as [[l1 err] w1]. simpl in Hhold.
  destruct Hhold as (? & ? & ? & ? & Hh & ?).
  destruct err; simpl; repeat split; auto.
  - right. eauto.
  - left. congruence.
Qed.

(** X16.  What the renewal never touches.  Through any run of wake-ups of
    the goroutine, the key, the value, the lease and the store of the lock
    stay the same; a goroutine that is parked either stays parked on the
    same ticker or has returned, and one that has returned stays so; and a
    last known record is never lost, only replaced. *)
Theorem holdRun_keeps_the_lock (wakeups : list ((World -> World) * HoldCase)) (l : redisLock)
    (w : World) :
  let l' := fst (holdRun wakeups l w) in
  redis l' = redis l /\ key l' = key l /\ value l' = value l /\ ttl l' = ttl l /\
  (holder l' = holder l \/ ((exists heartbeat, holder l = Renewing heartbeat) /\ holder l' = Returned)) /\
  (last l <> None -> last l' <> None).
Proof.
  revert l w. induction wakeups as [|[others c] rest IH]; intros l w; simpl.
  - repeat split; auto.
  - unfold bind, meanwhile.
    pose proof (holdSelect_keeps c l (interfere others w)) as Hstep.
    destruct (holdSelect c l (interfere others w)) as [l1 w1]. simpl in Hstep.
    specialize (IH l1 w1). simpl in IH.
    destruct Hstep as (Hr & Hk & Hv & Ht & Hh & Hl).
    destruct IH as (Hr' & Hk' & Hv' & Ht' & Hh' & Hl').
    repeat split; try congruence; [|auto].
    destruct Hh as [Hh | [Hpark Hh]], Hh' as [Hh' | [[hb Hpark'] Hh']].
    + left. congruence.
    + right. split; [exists hb; congruence | exact Hh'].
    + right. split; [exact Hpark | congruence].
    + congruence.
Qed.

Lemma holdRun_keeps_the_lock_witness :
  let l := mkLock Example.store (Some (mkKVPair "/lock" "" 7)) "/lock" "" (9 * Second)
             (Renewing (3 * Second)) in
  let w := snd (Put Example.store "/lock" "" None (Example.world 7)) in
  let l' := fst (holdRun [(elapse (3 * Second), heartbeat_C); (elapse Second, unlockCh_recv)] l w) in
  key l' = "/lock" /\ ttl l' = 9 * Second /\ last l' <> None.
Proof.
  intros l w l'.
  destruct (holdRun_keeps_the_lock
              [(elapse (3 * Second), heartbeat_C); (elapse Second, unlockCh_recv)] l w)
    as (_ & Hkey & _ & Httl & _ & Hlast).
  split; [exact Hkey|]. split; [exact Httl|]. apply Hlast. simpl. discriminate.
Defined.

(** X17.  A lease under three nanoseconds cannot be kept.  When [tryLock]
    takes the lock with such a lease (zero cannot be asked for, but one and
    two nanoseconds can, which the server keeps as one millisecond), the key
    is written, and the renewal goroutine dies in [time.NewTicker], which
    panics on a period that is not positive. *)
Theorem tryLock_short_lease_panics (l l' : redisLock) (w w' : World) :
  tryLock l w = ((l', (true, None)), w') ->
  ttl l < 3 ->
  holder l' = Panicked /\ last l' = Some (mkKVPair (key l) (value l) (now w mod Second)).
Proof.
  intros Htry Httl.
  destruct (tryLock_success _ _ _ _ Htry) as [-> _].
  unfold holdLock, NewTicker. simpl.
  assert (Hq : ttl l ÷ 3 <= 0).
  { destruct (Z.le_gt_cases 0 (ttl l)) as [Hpos|Hneg].
    - rewrite Z.quot_small by lia. lia.
    - apply Z.quot_le_upper_bound; lia. }
  destruct (Z.ltb_spec 0 (ttl l ÷ 3)); [lia|]. split; reflexivity.
Qed.

Lemma tryLock_short_lease_panics_witness :
  let l := NewLock Example.store "/lock" (Some {| lockValue := ""; lockTTL := 2 |}) in
  holder (fst (fst (tryLock l (Example.world 7)))) = Panicked /\
  db (snd (tryLock l (Example.world 7))) !! "lock" = Some ("", Millisecond).
Proof.
  intros l. split; [|reflexivity].
  destruct (tryLock_short_lease_panics l (fst (fst (tryLock l (Example.world 7))))
              (Example.world 7) (snd (tryLock l (Example.world 7)))) as [Hpanic _];
    [vm_compute; reflexivity | vm_compute; reflexivity | exact Hpanic].
Defined.

(** ** Errors on the way *)

(** X18.  A command lost on the way fails the plain operations with the
    error of the transport itself, and nothing changes in the store: [Put]
    (the pair being encoded), [Delete] and [Exists] return it as it is, and
    so does [Get], with one exception: the error [redis.Nil], which [Get]
    cannot tell from the reply for a missing key, comes back as
    [ErrKeyNotFound]. *)
Theorem lost_command_errors (r : Store) (key value blob : string)
    (opts : option WriteOptions) (w : World) (e : error) :
  lost w = Some e ->
  Encode (codec r) (Some (mkKVPair key value (now w mod Second))) = (blob, None) ->
  fst (Put r key value opts w) = Some e /\
  fst (Delete r key w) = Some e /\
  fst (Exists r key w) = (false, Some e) /\
  fst (Get r key w) = (None, Some (if bool_decide (e = Nil) then ErrKeyNotFound else e)) /\
  db (snd (Put r key value opts w)) = db w /\
  db (snd (Delete r key w)) = db w.
Proof.
  intros Hnet Henc.
  rewrite (Put_spec _ _ _ _ _ _ Henc), Hnet.
  unfold Delete, Exists, Get, get, bind.
  rewrite Del_one_spec, Exists_spec, Get_spec, Hnet. simpl.
  autorewrite with world.
  repeat split. destruct (bool_decide (e = Nil)); reflexivity.
Qed.

Lemma lost_command_errors_witness :
  let e := errorString "read tcp 127.0.0.1:6379: i/o timeout" in
  fst (Put Example.store "/k" "v" None (Example.offline 7 e)) = Some e /\
  fst (Get Example.store "/k" (Example.offline 7 e)) = (None, Some e) /\
  fst (Get Example.store "/k" (Example.offline 7 Nil)) = (None, Some ErrKeyNotFound).
Proof.
  intros e.
  destruct (lost_command_errors Example.store "/k" "v" "v" None (Example.offline 7 e) e)
    as (HPut & _ & _ & HGet & _); [reflexivity | reflexivity |].
  destruct (lost_command_errors Example.store "/k" "v" "v" None (Example.offline 7 Nil) Nil)
    as (_ & _ & _ & HNil & _); [reflexivity | reflexivity |].
  split; [exact HPut|]. split; [rewrite HGet | rewrite HNil]; reflexivity.
Defined.

(** X19.  The conditional operations tell not-found and modified by the
    text of the error, wherever the error comes from.  When the scripted
    command of [AtomicDelete], or of [AtomicPut] with a [previous], is lost
    with an error whose text holds ["redis: key is not found"], the caller
    gets [ErrKeyNotFound], though the script has not run and the store is as
    it was. *)
Theorem lost_script_read_as_not_found (r : Store) (key value old new : string)
    (previous : KVPair) (opts : option WriteOptions) (w : World) (e : error) :
  lost w = Some e ->
  strings.Contains (Error e) "redis: key is not found" = true ->
  Encode (codec r) (Some previous) = (old, None) ->
  Encode (codec r) (Some (mkKVPair key value (now w mod Second))) = (new, None) ->
  fst (AtomicDelete r key (Some previous) w) = (false, Some ErrKeyNotFound) /\
  fst (AtomicPut r key value (Some previous) opts w) = (false, None, Some ErrKeyNotFound) /\
  db (snd (AtomicDelete r key (Some previous) w)) = db w /\
  db (snd (AtomicPut r key value (Some previous) opts w)) = db w.
Proof.
  intros Hnet Htext Hold Hnew.
  unfold AtomicDelete, cad, bind. rewrite Hold.
  open_AtomicPut. unfold cas. rewrite Hnew, Hold.
  rewrite !runScript_spec, !Run_spec, Hnet. simpl. rewrite Htext. simpl.
  autorewrite with world. repeat split.
Qed.

Lemma lost_script_read_as_not_found_witness :
  let e := errorString "proxy: upstream closed: last reply was 'redis: key is not found'" in
  let w := mkWorld {["k" := ("v", 0)]} 7 [Some e] [] in
  fst (AtomicDelete Example.store "/k" (Some (mkKVPair "k" "v" 0)) w) =
    (false, Some ErrKeyNotFound) /\
  db w !! "k" = Some ("v", 0).
Proof.
  intros e w.
  destruct (lost_script_read_as_not_found Example.store "/k" "v2" "v" "v2"
              (mkKVPair "k" "v" 0) None w e) as (Hdel & _); try reflexivity.
  split; [exact Hdel | reflexivity].
Defined.

(** X20.  The conditional write knows whole seconds only.  With a
    [previous], a TTL of less than a second, either way from zero, is sent to
    the script as ["0"]: [AtomicPut] then does exactly what it does with no
    TTL at all. *)
Theorem AtomicPut_subsecond_TTL (r : Store) (key value : string) (previous : KVPair)
    (t : Duration) :
  - Second < t < Second ->
  formatSec t = "0" /\
  AtomicPut r key value (Some previous) (Some {| TTL := t |}) =
  AtomicPut r key value (Some previous) None.
Proof.
  intros Ht.
  assert (Hq : t ÷ Second = 0).
  { destruct (Z.le_gt_cases 0 t) as [Hpos|Hneg].
    - apply Z.quot_small. lia.
    - rewrite <- (Z.opp_involutive t), Z.quot_opp_l by discriminate.
      rewrite Z.quot_small by lia. reflexivity. }
  assert (Hfmt : formatSec t = "0") by (unfold formatSec; rewrite Hq; reflexivity).
  split; [exact Hfmt|].
  unfold AtomicPut. rewrite expiration_TTL, Hfmt. reflexivity.
Qed.

Lemma AtomicPut_subsecond_TTL_witness :
  formatSec 999999999 = "0" /\
  log (snd (AtomicPut Example.store "/k" "v2" (Some (mkKVPair "k" "v" 0))
              (Some {| TTL := 999999999 |}) (snd (Put Example.store "/k" "v" None (Example.world 7))))) =
    [SET "k" "v" 0; EVAL ["cas"; "k"; "v"; "v2"; "0"]].
Proof.
  destruct (AtomicPut_subsecond_TTL Example.store "/k" "v2" (mkKVPair "k" "v" 0) 999999999)
    as [Hfmt Hsame]; [vm_compute; split; reflexivity|].
  split; [exact Hfmt|]. rewrite Hsame. reflexivity.
Defined.

(** ** The lock and its release *)

Lemma luaScript_deletesOnMatch : deletesOnMatch Example.luaScript.
Proof.
  intros k old ttl m Hk. unfold Example.luaScript. rewrite Hk.
  rewrite bool_decide_eq_false_2 by (intros H; apply H; reflexivity).
  reflexivity.
Qed.

(** X21.  [Lock] and then [Unlock] leave the server as it was.  On a free
    key, over a network that loses nothing and with a script that makes the
    conditional delete, with a lease of at least 3 ns, [Lock] takes the key
    with one SETNX and [Unlock] then returns no error after one scripted
    delete that expects the value [Lock] wrote: the key is free again, the
    last known record is nil and the renewal goroutine has returned. *)
Theorem Lock_then_Unlock (cases : list ((World -> World) * LockCase)) (l : redisLock)
    (w : World) (blob : string) :
  let kv := mkKVPair (key l) (value l) (now w mod Second) in
  let k := normalize (key l) in
  last l = None ->
  3 <= ttl l ->
  Encode (codec (redis l)) (Some kv) = (blob, None) ->
  deletesOnMatch (script (redis l)) ->
  reliable w ->
  db w !! k = None ->
  exists l1 w1 l2 w2,
    Lock cases l w = ((l1, Some (true, None)), w1) /\
    Unlock l1 w1 = (Some (l2, None), w2) /\
    last l2 = None /\ holder l2 = Returned /\
    db w2 = db w /\
    log w2 = log w ++ [SETNX k blob (ttl l); EVAL [cmdCAD; k; blob]].
Proof.
  intros kv k Hlast Httl Henc Hscript Hnet Hk.
  pose proof (AtomicPut_nil_creates_free (redis l) (key l) (value l) (Some {| TTL := ttl l |})
                w blob Henc (reliable_lost _ Hnet) Hk) as HPut.
  rewrite expiration_TTL in HPut. specialize (HPut ltac:(lia)).
  destruct (holdLock_starts (setLast l (Some kv)) Httl) as [Hholder _].
  set (d := if 0 <? ttl l then Z.max Millisecond (ttl l ÷ Millisecond * Millisecond) else 0)
    in HPut.
  assert (HLock : Lock cases l w =
            ((holdLock (setLast l (Some kv)), Some (true, None)),
             withDb (<[k := (blob, d)]> (db w)) (sent (SETNX k blob (ttl l)) w))).
  { unfold Lock. unfold bind at 1. rewrite tryLock_spec. unfold lockWrite.
    rewrite Hlast, HPut. reflexivity. }
  set (l1 := holdLock (setLast l (Some kv))) in *.
  set (w1 := withDb _ _) in HLock.
  assert (Hl1 : redis l1 = redis l /\ key l1 = key l /\ last l1 = Some kv).
  { unfold l1, holdLock. destruct (NewTicker _); repeat split. }
  destruct Hl1 as (Hredis & Hkey & Hlast1).
  assert (Hnet1 : lost w1 = None).
  { apply reliable_lost. unfold w1. auto with world. }
  assert (Hdb1 : db w1 !! k = Some (blob, d)).
  { unfold w1. simpl. apply lookup_insert_eq. }
  assert (HUnlock : Unlock l1 w1 =
            (Some (setLast (setHolder l1 Returned) None, None),
             withDb (delete k (db w1)) (sent (EVAL [cmdCAD; k; blob]) w1))).
  { unfold Unlock. rewrite Hholder. unfold bind at 1.
    unfold holdSelect. rewrite Hholder. simpl.
    unfold bind at 1. unfold AtomicDelete, cad, bind. simpl.
    rewrite Hredis, Hkey, Hlast1. fold kv k. rewrite Henc.
    rewrite runScript_spec, Run_spec, Hnet1.
    rewrite (Hscript _ _ _ _ Hdb1). reflexivity. }
  exists l1, w1. eexists _, _.
  split; [exact HLock|]. split; [exact HUnlock|].
  split; [reflexivity|]. split; [reflexivity|].
  unfold w1. simpl. autorewrite with world. simpl. autorewrite with world.
  split; [apply delete_insert_id; exact Hk | rewrite <- app_assoc; reflexivity].
Qed.

Lemma Lock_then_Unlock_witness :
  let l := NewLock Example.store "/lock" None in
  let w := Example.world 7 in
  exists l1 w1 l2 w2,
    Lock [] l w = ((l1, Some (true, None)), w1) /\
    Unlock l1 w1 = (Some (l2, None), w2) /\
    last l2 = None /\ holder l2 = Returned /\
    db w2 = db w /\
    log w2 = log w ++ [SETNX "lock" "" defaultLockTTL; EVAL [cmdCAD; "lock"; ""]].
Proof.
  intros l w.
  apply (Lock_then_Unlock [] l w "").
  - reflexivity.
  - vm_compute. discriminate.
  - reflexivity.
  - exact luaScript_deletesOnMatch.
  - apply Forall_nil_2.
  - reflexivity.
Defined.

(** ** The client of a configuration *)

(** X22.  What [newClient] makes of its arguments.  With a Sentinel
    configuration it looks at the master name and the routing options only,
    never at the number of endpoints: it builds a client exactly when the
    master name is not empty and the routing options come with
    [ClusterClient].  Without one it builds a client for exactly one
    endpoint, refuses more than one, and panics on none, where it indexes an
    empty slice.  The three errors are the only ones it returns. *)
Theorem newClient_outcomes {tlsConfig : Type} (endpoints : list string)
    (options : option (Config tlsConfig)) :
  let sentinel := match options with Some o => Sentinel_ _ o | None => None end in
  (newClient endpoints options = panicked <-> sentinel = None /\ endpoints = []) /\
  ((exists c, newClient endpoints options = built c) <->
   match sentinel with
   | Some s =>
       Sentinel.MasterName s <> "" /\
       (Sentinel.ClusterClient s = false ->
        Sentinel.RouteByLatency s = false /\ Sentinel.RouteRandomly s = false)
   | None => length endpoints = 1%nat
   end) /\
  (forall e, newClient endpoints options = failed e ->
     match sentinel with
     | Some s => e = ErrMasterSetMustBeProvided \/ e = ErrInvalidRoutesOptions
     | None => e = ErrMultipleEndpointsUnsupported /\ (1 < length endpoints)%nat
     end).
Proof.
  assert (Hplain : forall o : option (Config tlsConfig),
            match o with Some o => Sentinel_ _ o | None => None end = None ->
            (newClient endpoints o = panicked <-> endpoints = []) /\
            ((exists c, newClient endpoints o = built c) <-> length endpoints = 1%nat) /\
            (forall e, newClient endpoints o = failed e ->
               e = ErrMultipleEndpointsUnsupported /\ (1 < length endpoints)%nat)).
  { intros o Ho. unfold newClient.
    destruct o as [o|]; [simpl in Ho; rewrite Ho|];
      destruct endpoints as [|endpoint [|another rest]]; simpl;
      (split; [|split]);
      try (split; [discriminate | intros [c H]; discriminate]);
      try (split; [intros [c H]; discriminate | discriminate]);
      try (split; [reflexivity | discriminate]); try tauto; eauto;
      try (split; eauto; fail);
      try (intros e H; discriminate);
      try (intros e H; injection H as <-; split; [reflexivity | lia]).
    all: split; discriminate. }
  destruct options as [o|]; cbv zeta.
  - destruct (Sentinel_ _ o) as [s|] eqn:Hs.
    + unfold newClient. rewrite Hs.
      destruct (bool_decide_reflect (Sentinel.MasterName s = "")) as [Hname|Hname].
      { split; [|split].
        - split; [discriminate | intros [H _]; discriminate].
        - split; [intros [c H]; discriminate | tauto].
        - intros e H. injection H as <-. auto. }
      destruct (Sentinel.ClusterClient s), (Sentinel.RouteByLatency s),
        (Sentinel.RouteRandomly s); simpl;
        (split; [split; [discriminate | intros [H _]; discriminate]|]);
        (split; [split; [intros [c H]; try discriminate; auto
                        | intros [_ H]; try (destruct (H eq_refl); discriminate); eauto]
                | intros e H; try discriminate; injection H as <-; auto]).
    + destruct (Hplain (Some o) Hs) as (Hpanic & Hbuilt & Hfailed).
      split; [|split; assumption]. rewrite Hpanic. tauto.
  - destruct (Hplain None eq_refl) as (Hpanic & Hbuilt & Hfailed).
    split; [|split; assumption]. rewrite Hpanic. tauto.
Qed.

Lemma newClient_outcomes_witness :
  newClient (tlsConfig := unit) [] None = panicked /\
  (exists c, newClient (tlsConfig := unit) ["127.0.0.1:6379"] None = built c).
Proof.
  destruct (newClient_outcomes (tlsConfig := unit) [] None) as ((_ & Hpanic) & _).
  destruct (newClient_outcomes (tlsConfig := unit) ["127.0.0.1:6379"] None) as (_ & (_ & Hbuilt) & _).
  split; [apply Hpanic; split; reflexivity | apply Hbuilt; reflexivity].
Defined.

(** ** The subscription *)

(** X23.  [receiveLoop] forwards, in the order received, exactly the
    messages that [ReceiveMessage] returns without an error before the loop
    stops, skipping the nil ones; it stops, closing the channel, at the
    first round in which the subscription is closed, the context is done or
    [ReceiveMessage] fails, and a message that comes with an error is not
    forwarded.  Until then it has not returned. *)
Theorem receiveLoop_forwards (received : list (option Message)) (round : Round)
    (rest : list Round) (msgCh : list Message) :
  let rounds := map (fun msg => ReceiveMessage msg None) received in
  receiveLoop rounds msgCh = (msgCh ++ omap id received, false) /\
  (stops round ->
   receiveLoop (rounds ++ round :: rest) msgCh = (msgCh ++ omap id received, true)).
Proof.
  simpl. revert msgCh.
  induction received as [|[m|] received IH]; intros msgCh; simpl.
  - rewrite app_nil_r. split; [reflexivity|].
    destruct round as [| |msg [e|]]; simpl; try reflexivity.
    intros H. destruct H. reflexivity.
  - destruct (IH (msgCh ++ [m])) as [Hrun Hstop].
    rewrite <- app_assoc in Hrun, Hstop. split; [exact Hrun | exact Hstop].
  - apply IH.
Qed.

Lemma receiveLoop_forwards_witness :
  let a := {| Channel := "__keyspace@0__:a"; Pattern := "__keyspace@0__:*"; Payload := "set" |} in
  let b := {| Channel := "__keyspace@0__:b"; Pattern := "__keyspace@0__:*"; Payload := "del" |} in
  receiveLoop [ReceiveMessage (Some a) None; ReceiveMessage None None;
               ReceiveMessage (Some b) (Some Canceled); ReceiveMessage (Some b) None] [] =
  ([a], true).
Proof.
  intros a b.
  destruct (receiveLoop_forwards [Some a; None] (ReceiveMessage (Some b) (Some Canceled))
              [ReceiveMessage (Some b) None] []) as [_ Hstop].
  apply Hstop. simpl. discriminate.
Defined.
